(** * terraform-plugin-proto-go: the release generator (generate.go)

    A shallow embedding of [generate.go]: the discovery of protocol versions
    in a Terraform source tree ([readProtoVersionBlobRefs]), the conversion
    of a staged build directory into git objects ([slurpDirIntoGitTree]) and
    the loop that creates one tag per protocol version
    ([createStableTags]).

    Go strings are byte strings: they are [string] here (a list of [ascii],
    one per byte).  The unsigned 64-bit components of a version are [N].
    The libraries the program imports (go-versions, go-git, os, ioutil,
    os/exec, time) are not part of the repository; each is given below as a
    small model, or as a field of the record [Env] that stands for what the
    outside world answers during one run. *)

From Stdlib Require Import ZArith Ascii String List Lia Bool.
From stdpp Require Import base option list gmap strings sorting pretty.

Local Open Scope string_scope.
Local Open Scope list_scope.
Set Warnings "-register-all,-clear-no-such-hyp".

(* ===================================================================== *)
(** ** Byte strings *)

Module Strings.

(** Go's [len(s)], an [int]. *)
Definition len (s : string) : Z := Z.of_nat (String.length s).

(** [strings.HasPrefix(s, prefix)]. *)
Definition HasPrefix (s prefix : string) : bool := String.prefix prefix s.

(** [strings.HasSuffix(s, suffix)]:
    [len(s) >= len(suffix) && s[len(s)-len(suffix):] == suffix]. *)
Definition HasSuffix (s suffix : string) : bool :=
  (String.length suffix <=? String.length s)%nat &&
  bool_decide
    (String.substring (String.length s - String.length suffix)
                      (String.length suffix) s = suffix).

(** The slice expression [s[lo:hi]].  Go panics unless
    [0 <= lo <= hi <= len(s)]; the panic is [None]. *)
Definition slice (s : string) (lo hi : Z) : option string :=
  if ((0 <=? lo) && (lo <=? hi) && (hi <=? len s))%Z
  then Some (String.substring (Z.to_nat lo) (Z.to_nat (hi - lo)) s)
  else None.

(** [filepath.Join(dir, name)] for a clean [dir] and a plain file name. *)
Definition Join (dir name : string) : string := dir +:+ "/" +:+ name.

(** [fmt.Sprintf("%d", n)] for an unsigned integer. *)
Definition fmt_d (n : N) : string := pretty n.

End Strings.

(* ===================================================================== *)
(** ** Versions (package [github.com/apparentlymart/go-versions/versions]) *)

Module Versions.

(** Modelled from the spec: the type [versions.Version] of the imported
    package go-versions, which is not part of the repository.  The spec
    gives it three unsigned components, major, minor and build (the
    README calls the third one the patch number or build number). *)
Record Version : Type := mkVersion { Major : N; Minor : N; Build : N }.

#[global] Instance Version_eq_dec : EqDecision Version.
Proof. solve_decision. Defined.

#[global] Instance Version_countable : Countable Version.
Proof.
  refine (inj_countable' (fun v => (Major v, Minor v, Build v))
                         (fun t => mkVersion t.1.1 t.1.2 t.2) _).
  by intros [].
Defined.

Definition is_digit (c : ascii) : bool :=
  let n := nat_of_ascii c in ((48 <=? n) && (n <=? 57))%nat.

Definition digit_value (c : ascii) : N := N.of_nat (nat_of_ascii c - 48).

Fixpoint parse_digits (acc : N) (s : string) : option N :=
  match s with
  | EmptyString => Some acc
  | String c s' =>
      if is_digit c then parse_digits (acc * 10 + digit_value c)%N s'
      else None
  end.

(** One numeric component: a non-empty run of decimal digits. *)
Definition parse_number (s : string) : option N :=
  match s with
  | EmptyString => None
  | _ => parse_digits 0%N s
  end.

(** The components of [s] between its dots. *)
Fixpoint split_dots (cur : string) (s : string) : list string :=
  match s with
  | EmptyString => [cur]
  | String c s' =>
      if Ascii.eqb c "."%char then cur :: split_dots "" s'
      else split_dots (cur +:+ String c "") s'
  end.

(** Modelled from the spec: [versions.ParseVersion] of go-versions, which
    is not part of the repository.  The spec: versions are parsed from
    strings of the form [<major>.<minor>] (build defaults to 0) or
    [<major>.<minor>.<build>]; a string missing the major or the minor
    component is rejected, not coerced.  [None] is the parse error. *)
Definition ParseVersion (s : string) : option Version :=
  match split_dots "" s with
  | [a; b] =>
      ma ← parse_number a; mi ← parse_number b;
      Some (mkVersion ma mi 0)
  | [a; b; c] =>
      ma ← parse_number a; mi ← parse_number b; bu ← parse_number c;
      Some (mkVersion ma mi bu)
  | _ => None
  end.

(** Modelled from the spec: [Version.String()] of go-versions; the spec
    fixes the tag name to [v<major>.<minor>.<build>], built in the code as
    ["v" + v.String()]. *)
Definition String (v : Version) : string :=
  Strings.fmt_d (Major v) +:+ "." +:+ Strings.fmt_d (Minor v)
    +:+ "." +:+ Strings.fmt_d (Build v).

(** Modelled from the spec: the ordering of versions, lexicographic on
    (major, minor, build). *)
Definition compare (v w : Version) : comparison :=
  match (Major v ?= Major w)%N with
  | Eq => match (Minor v ?= Minor w)%N with
          | Eq => (Build v ?= Build w)%N
          | c => c
          end
  | c => c
  end.

Definition LessThan (v w : Version) : bool :=
  match compare v w with Lt => true | _ => false end.

End Versions.

Export Versions(Version, mkVersion, Major, Minor, Build).

(* ===================================================================== *)
(** ** Git objects and repositories (package go-git) *)

Module Git.

(** [plumbing.Hash], twenty bytes, as the number they spell. *)
Definition Hash : Type := N.
Definition ZeroHash : Hash := 0%N.

(** [time.Time] of a signature, as seconds. *)
Definition Time : Type := N.

(** [filemode.FileMode]. *)
Inductive FileMode : Type :=
| Empty | Dir | Regular | Deprecated | Executable | Symlink | Submodule.

Record TreeEntry : Type :=
  mkTreeEntry { Name : string; Mode : FileMode; EntryHash : Hash }.

Record Signature : Type :=
  mkSignature { SigName : string; Email : string; When : Time }.

Record Commit : Type :=
  mkCommit { TreeHash : Hash; Author : Signature; Committer : Signature;
             Message : string }.

Record Tag : Type :=
  mkTag { TagName : string; Tagger : Signature; TagMessage : string;
          Target : Hash }.

Inductive Object : Type :=
| BlobObject (data : string)
| TreeObject (entries : list TreeEntry)
| CommitObject (c : Commit)
| TagObject (t : Tag).

#[global] Instance FileMode_eq_dec : EqDecision FileMode.
Proof. solve_decision. Defined.
#[global] Instance TreeEntry_eq_dec : EqDecision TreeEntry.
Proof. solve_decision. Defined.
#[global] Instance Signature_eq_dec : EqDecision Signature.
Proof. solve_decision. Defined.
#[global] Instance Commit_eq_dec : EqDecision Commit.
Proof. solve_decision. Defined.
#[global] Instance Tag_eq_dec : EqDecision Tag.
Proof. solve_decision. Defined.
#[global] Instance Object_eq_dec : EqDecision Object.
Proof. solve_decision. Defined.

(** The errors of go-git the program tells apart, and all the others. *)
Inductive GoError : Type :=
| ErrTagNotFound
| ErrTagExists
| ErrObjectNotFound
| ErrDirectoryNotFound
| ErrOther (msg : string).

#[global] Instance GoError_eq_dec : EqDecision GoError.
Proof. solve_decision. Defined.

(** A repository: the objects written to its object store, oldest first,
    and its tag references ([refs/tags/<name>]), each holding the hash it
    points at.  An object is addressed by the hash the storer computes
    for it. *)
Record Repository : Type :=
  mkRepository { objects : list Object; tags : gmap string Hash }.

Definition emptyRepository : Repository := mkRepository [] ∅.

End Git.

Export Git(Hash, TreeEntry, mkTreeEntry, Signature, mkSignature, Commit,
           mkCommit, Tag, mkTag, Object, BlobObject, TreeObject,
           CommitObject, TagObject, GoError, ErrTagNotFound, ErrTagExists,
           ErrObjectNotFound, ErrDirectoryNotFound, ErrOther, Repository,
           mkRepository, objects, tags).

(* ===================================================================== *)
(** ** The file system of the build directory *)

Module FS.

(** What [os.FileMode] says about an entry that is not a directory. *)
Inductive FileKind : Type :=
| KRegular (userExec : bool)
| KSymlink
| KIrregular.

(** [os.FileMode], as far as the program looks at it. *)
Inductive OSFileMode : Type :=
| OSDir
| OSFile (k : FileKind).

(** A directory entry: a file with its bytes, or a directory with its
    entries in the order in which the operating system enumerates
    them. *)
Inductive FsNode : Type :=
| FsFile (k : FileKind) (data : string)
| FsDir (listing : list (string * FsNode)).

(** [info.Mode()] and [info.IsDir()]. *)
Definition Mode (n : FsNode) : OSFileMode :=
  match n with FsFile k _ => OSFile k | FsDir _ => OSDir end.

Definition IsDir (n : FsNode) : bool :=
  match Mode n with OSDir => true | OSFile _ => false end.

(** Modelled from the spec: [filemode.NewFromOSFileMode] of go-git, which
    is not part of the repository.  The spec: the executable bit
    round-trips and non-executable files get the standard non-executable
    permission; a mode with no git equivalent is an error. *)
Definition NewFromOSFileMode (m : OSFileMode) : string + Git.FileMode :=
  match m with
  | OSDir => inr Git.Dir
  | OSFile (KRegular true) => inr Git.Executable
  | OSFile (KRegular false) => inr Git.Regular
  | OSFile KSymlink => inr Git.Symlink
  | OSFile KIrregular => inl "no equivalent git mode"
  end.

(** The order of [ioutil.ReadDir]: by file name, bytewise. *)
Definition name_le {A} (a b : string * A) : Prop :=
  String.leb a.1 b.1 = true.

#[global] Instance name_le_dec {A} (a b : string * A) :
  Decision (name_le a b).
Proof. unfold name_le. apply _. Defined.

(** Modelled from the documentation of Go's [ioutil.ReadDir], which is
    not part of the repository: it returns the entries of the directory
    sorted by file name. *)
Definition ReadDir {A} (listing : list (string * A)) : list (string * A) :=
  merge_sort name_le listing.

(** [dir_put name n es]: create or replace the entry [name]. *)
Fixpoint dir_put (name : string) (n : FsNode)
         (es : list (string * FsNode)) : list (string * FsNode) :=
  match es with
  | [] => [(name, n)]
  | (k, x) :: es' =>
      if decide (k = name) then (k, n) :: es'
      else (k, x) :: dir_put name n es'
  end.

Fixpoint dir_get (name : string) (es : list (string * FsNode))
  : option FsNode :=
  match es with
  | [] => None
  | (k, x) :: es' => if decide (k = name) then Some x else dir_get name es'
  end.

(** [os.Mkdir(root/name)]: fails when [root] is no directory or the name
    is taken. *)
Definition Mkdir (root : FsNode) (name : string) : option FsNode :=
  match root with
  | FsDir es =>
      match dir_get name es with
      | Some _ => None
      | None => Some (FsDir (es ++ [(name, FsDir [])]))
      end
  | FsFile _ _ => None
  end.

(** Writing the regular file [root/sub/file]: fails when [root/sub] is no
    directory. *)
Definition WriteFile (root : FsNode) (sub file data : string)
  : option FsNode :=
  match root with
  | FsDir es =>
      match dir_get sub es with
      | Some (FsDir ses) =>
          Some (FsDir (dir_put sub
                 (FsDir (dir_put file (FsFile (KRegular false) data) ses))
                 es))
      | _ => None
      end
  | FsFile _ _ => None
  end.

End FS.

Export FS(FileKind, KRegular, KSymlink, KIrregular, OSFileMode, OSDir,
          OSFile, FsNode, FsFile, FsDir).

(* ===================================================================== *)
(** ** Errors, the outside world, and the monad of the program *)

(** The errors [generate.go] returns, one constructor per [fmt.Errorf]
    (its format string is quoted), each carrying what the format prints. *)
Inductive Error : Type :=
(* readProtoVersionBlobRefs *)
| ErrReadCommit (commitHash : Hash) (cause : GoError)
    (* "failed to read commit %s: %s" *)
| ErrReadCommitTree (commitHash : Hash) (cause : GoError)
    (* "failed to read tree from commit %s: %s" *)
| ErrFindProtoDir (commitHash : Hash) (cause : GoError)
    (* "failed to find plugin protocol docs directory in commit %s: %s" *)
(* createStableTags *)
| ErrCheckTag (tagName : string) (cause : GoError)
    (* "can't check if tag %s is already present: %s" *)
| ErrFindBlob (v : Version) (cause : GoError)
    (* "can't find proto blob for v%s: %s" *)
| ErrTempDir (v : Version) (cause : string)
    (* "failed to create temporary build directory for v%s: %s" *)
| ErrMkdir (packageDirName : string) (v : Version) (cause : string)
    (* "failed to create %s package directory for v%s: %s" *)
| ErrGoModInit (v : Version) (cause : string)
    (* "failed to initialize Go module for v%s: %s" *)
| ErrBlobReader (v : Version) (cause : string)
    (* "failed to read proto blob for v%s: %s" *)
| ErrCreateProto (protoFileName : string) (v : Version) (cause : string)
    (* "failed to create temporary %s file for v%s: %s" *)
| ErrWriteProto (protoFileName : string) (v : Version) (cause : string)
    (* "failed to write temporary %s file for v%s: %s" *)
| ErrProtoc (v : Version) (cause : string)
    (* "failed to compile protobuf schema for v%s: %s" *)
| ErrGoModTidy (v : Version) (cause : string)
    (* "failed to locate Go module dependencies for v%s: %s" *)
| ErrGitTree (v : Version) (cause : Error)
    (* "failed to create new git tree for v%s: %s" *)
| ErrEncodeCommit (v : Version) (cause : string)
    (* "failed to create new git commit for v%s: %s" *)
| ErrWriteCommit (v : Version) (cause : GoError)
    (* "failed to write new git commit for v%s: %s" *)
| ErrWriteTag (v : Version) (cause : GoError)
    (* "failed to write tag for v%s: %s" *)
(* slurpDirIntoGitTree *)
| ErrReadDir (dir : string) (cause : string)
    (* "failed to read %s: %s" *)
| ErrInvalidMode (mode : OSFileMode) (name : string) (cause : string)
    (* "invalid mode %s for %s: %s" *)
| ErrBlobWriter (name : string) (cause : string)
    (* "failed to create new blob object writer for %s: %s" *)
| ErrOpen (name : string) (cause : string)
    (* "failed to open %s: %s" *)
| ErrCopy (name : string) (cause : string)
    (* "failed to write %s: %s" *)
| ErrCloseBlob (name : string) (cause : string)
    (* "failed to close blob for %s: %s" *)
| ErrWriteBlob (name : string) (cause : GoError)
    (* "failed to write blob for %s: %s" *)
| ErrEncodeTree (dir : string) (cause : string)
    (* "failed to encode tree for %s: %s" *)
| ErrStorer (cause : GoError).
    (* the error of the last SetEncodedObject, returned as it is *)

(** The fallible system calls of the program whose only effect here is to
    succeed or fail; each is asked with the path (or name) it works on. *)
Inductive IOCall : Type :=
| CallReadDir      (* ioutil.ReadDir(dir) *)
| CallBlobWriter   (* obj.Writer() *)
| CallOpen         (* os.Open(path) *)
| CallCopy         (* io.Copy(w, f) *)
| CallClose        (* w.Close() *)
| CallMkdir        (* os.Mkdir(packageDirPath, os.ModePerm) *)
| CallBlobReader   (* blob.Reader() *)
| CallCreate       (* os.Create(path) *)
| CallCopyProto.   (* io.Copy(protoFile, protoReader) *)

(** What the outside world answers during one run of the program.  A fault
    is [Some msg], the message of the error; [None] lets the call go
    through.  Faults of the target repository may depend on its state, so
    the same call can fail once and succeed later. *)
Record Env : Type := mkEnv {
  (** the hash under which the storer files an object *)
  hashObject : Object → Hash;
  (** [Storer.SetEncodedObject] failing *)
  storeFault : Repository → Object → option string;
  (** looking up a reference failing for a reason other than its absence *)
  refFault : Repository → string → option string;
  (** [Storer.SetReference] failing *)
  setRefFault : Repository → string → option string;
  (** [Encode] of a tree or commit failing *)
  encodeFault : Object → option string;
  (** the fallible system calls *)
  ioFault : IOCall → string → option string;
  (** [ioutil.TempDir(dir, prefix)]: the path of the new directory *)
  TempDir : string → string → string + string;
  (** [exec.Command(argv...).Run()] with [cmd.Dir] the sub-directory [dir]
      of the build directory (the empty string for the build directory
      itself): what the command leaves in the build directory *)
  runCommand : list string → string → FsNode → string + FsNode;
  (** [time.Now()] when the commit of a version is made *)
  Now : Version → Git.Time
}.

(** A computation on the target repository that returns a result or an
    error; what was written before an error stays written. *)
Definition M (E A : Type) : Type := Repository → (E + A) * Repository.

Definition ret {E A} (a : A) : M E A := λ r, (inr a, r).
Definition throw {E A} (e : E) : M E A := λ r, (inl e, r).
Definition bind {E A B} (m : M E A) (k : A → M E B) : M E B :=
  λ r, match m r with
       | (inl e, r') => (inl e, r')
       | (inr a, r') => k a r'
       end.

(** [fmt.Errorf] around the error of a call. *)
Definition wrap {E E' A} (f : E → E') (m : M E A) : M E' A :=
  λ r, match m r with
       | (inl e, r') => (inl (f e), r')
       | (inr a, r') => (inr a, r')
       end.

(** A call that touches nothing and fails with [f msg] on a fault. *)
Definition check {E} (fault : option string) (f : string → E) : M E unit :=
  match fault with
  | Some msg => throw (f msg)
  | None => ret tt
  end.

(** A step outside the target repository that yields a value or fails. *)
Definition lift {E C A} (x : C + A) (f : C → E) : M E A :=
  match x with
  | inl cause => throw (f cause)
  | inr a => ret a
  end.

Notation "x <~ m ;; k" := (bind m (λ x, k))
  (at level 100, m at next level, right associativity,
   format "'[v' x  <~  m  ;;  '/' k ']'").
Notation "m ;;; k" := (bind m (λ _, k))
  (at level 100, right associativity,
   format "'[v' m  ;;;  '/' k ']'").

(* ===================================================================== *)
(** ** go-git: the operations on a repository *)

Section GoGit.
Context (env : Env).

(** [repo.Storer.SetEncodedObject(obj)]: files the object and returns its
    hash. *)
Definition SetEncodedObject (o : Object) : M GoError Hash :=
  λ r, match storeFault env r o with
       | Some msg => (inl (ErrOther msg), r)
       | None =>
           (inr (hashObject env o),
            mkRepository (objects r ++ [o]) (tags r))
       end.

(** The object filed under a hash, if any. *)
Definition lookupObject (r : Repository) (h : Hash) : option Object :=
  snd <$> list_find (λ o, hashObject env o = h) (objects r).

(** [repo.Tag(name)]: the reference of a tag; [ErrTagNotFound] when there
    is none, another error when the lookup itself fails. *)
Definition Repository_Tag (r : Repository) (name : string)
  : GoError + Hash :=
  match refFault env r name with
  | Some msg => inl (ErrOther msg)
  | None =>
      match tags r !! name with
      | Some h => inr h
      | None => inl ErrTagNotFound
      end
  end.

(** [repo.CreateTag(name, hash, opts)] with tagger and message: refuses
    an existing tag, files the tag object, then sets the reference. *)
Definition CreateTag (name : string) (hash : Hash)
           (tagger : Signature) (message : string) : M GoError Hash :=
  λ r, match Repository_Tag r name with
       | inr _ => (inl ErrTagExists, r)
       | inl (ErrOther msg) => (inl (ErrOther msg), r)
       | inl _ =>
           (target <~ SetEncodedObject
                        (TagObject (mkTag name tagger message hash)) ;;
            λ r', match setRefFault env r' name with
                  | Some msg => (inl (ErrOther msg), r')
                  | None =>
                      (inr target,
                       mkRepository (objects r')
                                    (<[name := target]> (tags r')))
                  end) r
       end.

(** [repo.CommitObject(h)], [repo.BlobObject(h)] and the tree of a
    hash. *)
Definition Repository_CommitObject (r : Repository) (h : Hash)
  : GoError + Commit :=
  match lookupObject r h with
  | Some (CommitObject c) => inr c
  | _ => inl ErrObjectNotFound
  end.

Definition Repository_BlobObject (r : Repository) (h : Hash)
  : GoError + string :=
  match lookupObject r h with
  | Some (BlobObject data) => inr data
  | _ => inl ErrObjectNotFound
  end.

Definition Repository_TreeObject (r : Repository) (h : Hash)
  : GoError + list TreeEntry :=
  match lookupObject r h with
  | Some (TreeObject es) => inr es
  | _ => inl ErrObjectNotFound
  end.

(** [tree.Tree(path)]: the sub-tree reached by the directory names of
    [path], one level per name. *)
Fixpoint Tree_Tree (r : Repository) (entries : list TreeEntry)
         (path : list string) : GoError + list TreeEntry :=
  match path with
  | [] => inr entries
  | name :: path' =>
      match list_find (λ e, Git.Name e = name) entries with
      | Some (_, e) =>
          match Git.Mode e with
          | Git.Dir =>
              match Repository_TreeObject r (Git.EntryHash e) with
              | inr sub => Tree_Tree r sub path'
              | inl err => inl err
              end
          | _ => inl ErrDirectoryNotFound
          end
      | None => inl ErrDirectoryNotFound
      end
  end.

End GoGit.

(* ===================================================================== *)
(** ** generate.go *)

Section Generate.
Context (env : Env).

(** *** readProtoVersionBlobRefs *)

(** The loop over [protoTree.Entries], with [ret] the map built so far.
    [None] is the run-time panic of an out-of-range slice expression. *)
Fixpoint collectProtoVersions (entries : list TreeEntry)
         (ret : gmap Version Hash) : option (gmap Version Hash) :=
  match entries with
  | [] => Some ret
  | entry :: rest =>
      let name := Git.Name entry in
      if negb (Strings.HasPrefix name "tfplugin"
               && Strings.HasSuffix name ".proto")
      then collectProtoVersions rest ret
      else
        match Strings.slice name (Strings.len "tfplugin")
                            (Strings.len name - Strings.len ".proto") with
        | None => None
        | Some mid =>
            let versionStr := mid +:+ ".0" in
            match Versions.ParseVersion versionStr with
            | None => collectProtoVersions rest ret
            | Some version =>
                collectProtoVersions rest
                  (<[version := Git.EntryHash entry]> ret)
            end
        end
  end.

Definition readProtoVersionBlobRefs (repo : Repository)
           (commitHash : Hash) : option (Error + gmap Version Hash) :=
  match Repository_CommitObject env repo commitHash with
  | inl err => Some (inl (ErrReadCommit commitHash err))
  | inr commit =>
      match Repository_TreeObject env repo (Git.TreeHash commit) with
      | inl err => Some (inl (ErrReadCommitTree commitHash err))
      | inr rootTree =>
          match Tree_Tree env repo rootTree ["docs"; "plugin-protocol"] with
          | inl err => Some (inl (ErrFindProtoDir commitHash err))
          | inr protoTree => inr <$> collectProtoVersions protoTree ∅
          end
      end
  end.

(** *** slurpDirIntoGitTree *)

(** The branch of the loop for a file: a new blob object, filled with the
    bytes of the file and written to the store. *)
Definition slurpFile (dir name data : string) : M Error Hash :=
  check (ioFault env CallBlobWriter name) (ErrBlobWriter name) ;;;
  check (ioFault env CallOpen (Strings.Join dir name)) (ErrOpen name) ;;;
  check (ioFault env CallCopy (Strings.Join dir name)) (ErrCopy name) ;;;
  check (ioFault env CallClose name) (ErrCloseBlob name) ;;;
  wrap (ErrWriteBlob name) (SetEncodedObject env (BlobObject data)).

(** The loop over the entries [ReadDir] returned, with [tree] the entries
    appended so far.  Each entry comes with its [info] and, for a
    directory, with the recursive call on it, which runs when the loop
    reaches the entry. *)
Fixpoint slurpEntries (dir : string)
         (entries : list (string * (FsNode * M Error Hash)))
         (tree : list TreeEntry) : M Error (list TreeEntry) :=
  match entries with
  | [] => ret tree
  | (name, (info, recur)) :: rest =>
      mode <~ lift (FS.NewFromOSFileMode (FS.Mode info))
                   (ErrInvalidMode (FS.Mode info) name) ;;
      hash <~ match info with
              | FsDir _ => recur
              | FsFile _ data => slurpFile dir name data
              end ;;
      slurpEntries dir rest (tree ++ [mkTreeEntry name mode hash])
  end.

Fixpoint slurpDirIntoGitTree (dir : string) (node : FsNode)
  : M Error Hash :=
  match node with
  | FsFile _ _ => throw (ErrReadDir dir "not a directory")
  | FsDir listing =>
      check (ioFault env CallReadDir dir) (ErrReadDir dir) ;;;
      let entries :=
        FS.ReadDir
          (map (λ '(name, child),
                  (name, (child,
                          slurpDirIntoGitTree (Strings.Join dir name) child)))
               listing) in
      tree <~ slurpEntries dir entries [] ;;
      check (encodeFault env (TreeObject tree)) (ErrEncodeTree dir) ;;;
      wrap ErrStorer (SetEncodedObject env (TreeObject tree))
  end.

(** *** createStableTags *)

Definition tagNameOf (v : Version) : string := "v" +:+ Versions.String v.

Definition commitMessage (v : Version) : string :=
  "Auto-generated Go module for Terraform plugin protocol v"
    +:+ Strings.fmt_d (Major v) +:+ "." +:+ Strings.fmt_d (Minor v).

Definition authorAt (when : Git.Time) : Signature :=
  mkSignature "The Terraform Team" "noreply@hashicorp.com" when.

(** Lines 167 to 229: the temporary build directory of a version, filled
    with the protocol definition and what the Go and protobuf tools
    generate from it.  Returns the path of the directory and its
    content.  The log lines, the environment handed to [go mod tidy] and
    the deferred clean-up ([os.RemoveAll], [Close]), which runs when
    [createStableTags] returns, do not touch the target repository and are
    left out. *)
Definition stageModule (tfRepo : Repository) (v : Version)
           (blobHash : Hash) : M Error (string * FsNode) :=
  blob <~ lift (Repository_BlobObject env tfRepo blobHash) (ErrFindBlob v) ;;
  let modulePath :=
    "github.com/apparentlymart/terraform-plugin-proto-go/v"
      +:+ Strings.fmt_d (Major v) in
  let packageDirName := "tfplugin" +:+ Strings.fmt_d (Major v) in
  let protoFileName :=
    "tfplugin" +:+ Strings.fmt_d (Major v) +:+ ".proto" in
  tmpDir <~ lift (TempDir env "work.git" ("build-" +:+ Versions.String v))
                 (ErrTempDir v) ;;
  let packageDirPath := Strings.Join tmpDir packageDirName in
  check (ioFault env CallMkdir packageDirPath)
        (ErrMkdir packageDirName v) ;;;
  tmp <~ lift (from_option inr (inl "file exists")
                           (FS.Mkdir (FsDir []) packageDirName))
              (ErrMkdir packageDirName v) ;;
  tmp <~ lift (runCommand env ["go"; "mod"; "init"; modulePath] "" tmp)
              (ErrGoModInit v) ;;
  check (ioFault env CallBlobReader (Versions.String v))
        (ErrBlobReader v) ;;;
  check (ioFault env CallCreate (Strings.Join packageDirPath protoFileName))
        (ErrCreateProto protoFileName v) ;;;
  tmp <~ lift (from_option inr (inl "no such file or directory")
                 (FS.WriteFile tmp packageDirName protoFileName ""))
              (ErrCreateProto protoFileName v) ;;
  check (ioFault env CallCopyProto
                 (Strings.Join packageDirPath protoFileName))
        (ErrWriteProto protoFileName v) ;;;
  tmp <~ lift (from_option inr (inl "no such file or directory")
                 (FS.WriteFile tmp packageDirName protoFileName blob))
              (ErrWriteProto protoFileName v) ;;
  tmp <~ lift (runCommand env
                 ["protoc"; "-I"; "./"; protoFileName;
                  "--go_out=plugins=grpc:./"] packageDirName tmp)
              (ErrProtoc v) ;;
  tmp <~ lift (runCommand env ["go"; "mod"; "tidy"] "" tmp)
              (ErrGoModTidy v) ;;
  ret (tmpDir, tmp).

(** Lines 231 to 263: the tree of the build directory, the commit on it
    and the tag on the commit, written in this order. *)
Definition commitAndTag (v : Version) (tagName tmpDir : string)
           (tmp : FsNode) : M Error unit :=
  treeHash <~ wrap (ErrGitTree v) (slurpDirIntoGitTree tmpDir tmp) ;;
  let author := authorAt (Now env v) in
  let commit := mkCommit treeHash author author (commitMessage v) in
  check (encodeFault env (CommitObject commit)) (ErrEncodeCommit v) ;;;
  commitHash <~ wrap (ErrWriteCommit v)
                     (SetEncodedObject env (CommitObject commit)) ;;
  _ <~ wrap (ErrWriteTag v)
            (CreateTag env tagName commitHash
                       (Git.Author commit) (Git.Message commit)) ;;
  ret tt.

(** The loop of [createStableTags] over the map [blobs], whose entries
    arrive in the order Go's runtime picks for this run; the state is the
    target repository [ourRepo].  [inr tt] is the [nil] error. *)
Fixpoint createStableTags (tfRepo : Repository)
         (blobs : list (Version * Hash)) : M Error unit :=
  match blobs with
  | [] => ret tt
  | (v, blobHash) :: rest =>
      let tagName := tagNameOf v in
      λ ourRepo,
        match Repository_Tag env ourRepo tagName with
        | inr _ =>
            (* Tag already exists, so skip *)
            createStableTags tfRepo rest ourRepo
        | inl err =>
            if decide (err = ErrTagNotFound) then
              (staged <~ stageModule tfRepo v blobHash ;;
               commitAndTag v tagName staged.1 staged.2 ;;;
               createStableTags tfRepo rest) ourRepo
            else (inl (ErrCheckTag tagName err), ourRepo)
        end
  end.

(** [createUnstableBranches]. *)
Definition createUnstableBranches (tfRepo : Repository)
           (blobs : list (Version * Hash)) : M Error unit :=
  ret tt.

End Generate.

(* ===================================================================== *)
(** ** A small concrete world, to run the program on *)

Module Demo.

Definition sigText (s : Signature) : string :=
  Git.SigName s +:+ " <" +:+ Git.Email s +:+ "> " +:+ pretty (Git.When s).

Definition modeText (m : Git.FileMode) : string :=
  match m with
  | Git.Empty => "0"
  | Git.Dir => "40000"
  | Git.Regular => "100644"
  | Git.Deprecated => "100664"
  | Git.Executable => "100755"
  | Git.Symlink => "120000"
  | Git.Submodule => "160000"
  end.

(** The text of an object, after the layout of git's own encoding. *)
Definition encode (o : Object) : string :=
  match o with
  | BlobObject data => "blob " +:+ data
  | TreeObject es =>
      fold_right
        (λ e acc, modeText (Git.Mode e) +:+ " " +:+ Git.Name e +:+ ":"
                    +:+ pretty (Git.EntryHash e) +:+ ";" +:+ acc)
        "" es
  | CommitObject c =>
      "commit tree " +:+ pretty (Git.TreeHash c)
        +:+ " author " +:+ sigText (Git.Author c)
        +:+ " committer " +:+ sigText (Git.Committer c)
        +:+ " " +:+ Git.Message c
  | TagObject t =>
      "tag object " +:+ pretty (Git.Target t)
        +:+ " tag " +:+ Git.TagName t
        +:+ " tagger " +:+ sigText (Git.Tagger t)
        +:+ " " +:+ Git.TagMessage t
  end.

Fixpoint textNumber (acc : N) (s : string) : N :=
  match s with
  | EmptyString => acc
  | String c s' =>
      textNumber ((acc * 257 + N_of_ascii c) `mod` 2305843009213693951)%N s'
  end.

(** A stand-in for SHA-1: a polynomial checksum of the text of the
    object. *)
Definition hash (o : Object) : Hash := textNumber 1%N (encode o).

(** The Go and protobuf tools: [go mod init] writes [go.mod], [protoc]
    writes one [.pb.go] file next to the protocol definition and rejects
    a definition that does not start with the letter s (of [syntax]),
    [go mod tidy] writes [go.sum]. *)
Definition tools (argv : list string) (dir : string) (tmp : FsNode)
  : string + FsNode :=
  match argv, tmp with
  | ["go"; "mod"; "init"; modulePath], FsDir es =>
      inr (FsDir (FS.dir_put "go.mod"
                    (FsFile (KRegular false) ("module " +:+ modulePath)) es))
  | ["go"; "mod"; "tidy"], FsDir es =>
      inr (FsDir (FS.dir_put "go.sum" (FsFile (KRegular false) "") es))
  | ["protoc"; _; _; protoFileName; _], FsDir es =>
      match FS.dir_get dir es with
      | Some (FsDir ses) =>
          match FS.dir_get protoFileName ses with
          | Some (FsFile _ (String "s" _ as data)) =>
              inr (FsDir (FS.dir_put dir
                     (FsDir (FS.dir_put (protoFileName +:+ ".pb.go")
                               (FsFile (KRegular false)
                                       ("package generated from " +:+ data))
                               ses))
                     es))
          | _ => inl "exit status 1"
          end
      | _ => inl "exit status 1"
      end
  | _, _ => inl "exit status 127"
  end.

(** A run in which no call fails unless [protoc] rejects its input, and
    whose commits are made at time [now]. *)
Definition envAt (now : Git.Time) : Env :=
  {| hashObject := hash;
     storeFault := λ _ _, None;
     refFault := λ _ _, None;
     setRefFault := λ _ _, None;
     encodeFault := λ _, None;
     ioFault := λ _ _, None;
     TempDir := λ dir prefix, inr (Strings.Join dir (prefix +:+ "000"));
     runCommand := tools;
     Now := λ _, now |}.

Definition env : Env := envAt 1700000000%N.

(** The same run, except that the reference of the tag v5.1.0 cannot be
    read. *)
Definition envBrokenRef : Env :=
  {| hashObject := hash;
     storeFault := λ _ _, None;
     refFault := λ _ name,
       if decide (name = "v5.1.0") then Some "reference broken" else None;
     setRefFault := λ _ _, None;
     encodeFault := λ _, None;
     ioFault := λ _ _, None;
     TempDir := λ dir prefix, inr (Strings.Join dir (prefix +:+ "000"));
     runCommand := tools;
     Now := λ _, 1700000000%N |}.

Definition v5_0 : Version := mkVersion 5 0 0.
Definition v5_1 : Version := mkVersion 5 1 0.
Definition v5_2 : Version := mkVersion 5 2 0.

Definition proto50 : string := "syntax = 'proto3'; // 5.0".
Definition proto51 : string := "syntax = 'proto3'; // 5.1".
Definition proto52 : string := "syntax = 'proto3'; // 5.2".
Definition protoBad : string := "not a protocol definition".

(** The Terraform repository: the protocol definitions as blobs. *)
Definition tfRepo : Repository :=
  mkRepository
    [BlobObject proto50; BlobObject proto51; BlobObject proto52;
     BlobObject protoBad] ∅.

Definition blobOf (data : string) : Hash := hash (BlobObject data).

(** A target repository in which v5.0.0 is released already. *)
Definition released50 : Repository :=
  (createStableTags env tfRepo [(v5_0, blobOf proto50)]
                    Git.emptyRepository).2.

(** A build directory, and the same directory enumerated by the
    operating system in another order. *)
Definition buildDir : FsNode :=
  FsDir [("go.mod", FsFile (KRegular false) "module m");
         ("tfplugin5",
          FsDir [("tfplugin5.proto", FsFile (KRegular false) proto50);
                 ("tfplugin5.pb.go", FsFile (KRegular false) "package")]);
         ("build.sh", FsFile (KRegular true) "#!/bin/sh")].

Definition buildDirShuffled : FsNode :=
  FsDir [("tfplugin5",
          FsDir [("tfplugin5.pb.go", FsFile (KRegular false) "package");
                 ("tfplugin5.proto", FsFile (KRegular false) proto50)]);
         ("build.sh", FsFile (KRegular true) "#!/bin/sh");
         ("go.mod", FsFile (KRegular false) "module m")].

(** The directory of protocol definitions of the spec's example. *)
Definition protoTree : list TreeEntry :=
  [mkTreeEntry "tfplugin5.proto" Git.Regular (blobOf proto50);
   mkTreeEntry "README.md" Git.Regular (blobOf "read me");
   mkTreeEntry "tfplugin.proto" Git.Regular (blobOf protoBad)].

(** A commit of the Terraform repository with that directory at
    [docs/plugin-protocol]. *)
Definition docsTree : list TreeEntry :=
  [mkTreeEntry "plugin-protocol" Git.Dir (hash (TreeObject protoTree))].

Definition rootTree : list TreeEntry :=
  [mkTreeEntry "README.md" Git.Regular (blobOf "read me");
   mkTreeEntry "docs" Git.Dir (hash (TreeObject docsTree))].

Definition stableCommit : Commit :=
  mkCommit (hash (TreeObject rootTree)) (authorAt 0%N) (authorAt 0%N)
           "v0.12.0".

Definition sourceRepo : Repository :=
  mkRepository
    [BlobObject proto50; BlobObject "read me"; BlobObject protoBad;
     TreeObject protoTree; TreeObject docsTree; TreeObject rootTree;
     CommitObject stableCommit] ∅.

End Demo.

(* ===================================================================== *)
(** ** Vocabulary of the statements *)

(** The objects [slurpDirIntoGitTree] writes. *)
Definition isTreeOrBlob (o : Object) : Prop :=
  match o with
  | BlobObject _ | TreeObject _ => True
  | CommitObject _ | TagObject _ => False
  end.

Definition isCommit (o : Object) : bool :=
  match o with CommitObject _ => true | _ => false end.

Definition isTag (o : Object) : bool :=
  match o with TagObject _ => true | _ => false end.

(** The git mode of a directory entry, [Empty] where there is none. *)
Definition gitMode (n : FsNode) : Git.FileMode :=
  match FS.NewFromOSFileMode (FS.Mode n) with
  | inr m => m
  | inl _ => Git.Empty
  end.

(** The hash [slurpDirIntoGitTree] returns for a directory (and the hash of
    the blob of a file) when no call fails: the same recursion, without the
    repository. *)
Fixpoint nodeHash (env : Env) (node : FsNode) : Hash :=
  match node with
  | FsFile _ data => hashObject env (BlobObject data)
  | FsDir listing =>
      hashObject env
        (TreeObject
           (map (λ e : string * (FsNode * Hash),
                   mkTreeEntry e.1 (gitMode e.2.1) e.2.2)
                (FS.ReadDir
                   (map (λ '(name, child), (name, (child, nodeHash env child)))
                        listing))))
  end.

(** The tree entry of a directory entry. *)
Definition entryOf (env : Env) (e : string * FsNode) : TreeEntry :=
  mkTreeEntry e.1 (gitMode e.2) (nodeHash env e.2).

(** Every directory holds each name once. *)
Inductive uniqueNames : FsNode → Prop :=
| uniqueNames_file k data : uniqueNames (FsFile k data)
| uniqueNames_dir listing :
    NoDup listing.*1 →
    Forall (λ e, uniqueNames e.2) listing →
    uniqueNames (FsDir listing).

(** The same files and directories, each directory enumerated in some
    other order. *)
Inductive shuffled : FsNode → FsNode → Prop :=
| shuffled_file k data : shuffled (FsFile k data) (FsFile k data)
| shuffled_dir l1 l l2 :
    Forall2 (λ a b, a.1 = b.1 ∧ shuffled a.2 b.2) l1 l →
    l ≡ₚ l2 →
    shuffled (FsDir l1) (FsDir l2).

(** The commit and the tag [createStableTags] makes for a version, given
    the hash of its tree and the time of the run. *)
Definition commitOf (v : Version) (treeHash : Hash) (when : Git.Time)
  : Commit :=
  mkCommit treeHash (authorAt when) (authorAt when) (commitMessage v).

Definition tagOf (env : Env) (v : Version) (c : Commit) : Tag :=
  mkTag (tagNameOf v) (Git.Author c) (Git.Message c)
        (hashObject env (CommitObject c)).

(** What must be in the store before an object is written: the tree of a
    commit, the commit of a tag object. *)
Definition precedents (env : Env) (before : list Object) (o : Object)
  : Prop :=
  match o with
  | CommitObject c =>
      ∃ es, TreeObject es ∈ before ∧
            hashObject env (TreeObject es) = Git.TreeHash c
  | TagObject t =>
      ∃ c, CommitObject c ∈ before ∧
           hashObject env (CommitObject c) = Git.Target t
  | _ => True
  end.

(** The object store was written in an admissible order: the tree of every
    commit was written before the commit, and the commit of every tag
    object before the tag object. *)
Definition logOrdered (env : Env) (objs : list Object) : Prop :=
  ∀ l1 o l2, objs = l1 ++ o :: l2 → precedents env l1 o.

(** Every tag of the repository points at a tag object of the store, which
    points at a commit of the store. *)
Definition tagsResolve (env : Env) (r : Repository) : Prop :=
  ∀ name h, tags r !! name = Some h →
    ∃ t c, TagObject t ∈ objects r ∧ hashObject env (TagObject t) = h ∧
           Git.TagName t = name ∧
           CommitObject c ∈ objects r ∧
           hashObject env (CommitObject c) = Git.Target t.


(** A name of the form [tfplugin<digits>.proto], as the specification
    words the pattern of discovery. *)
Definition allDigits (s : string) : bool :=
  match s with
  | EmptyString => false
  | _ => forallb Versions.is_digit (list_ascii_of_string s)
  end.

Definition specPattern (name : string) : Prop :=
  ∃ digits, allDigits digits = true ∧
            name = "tfplugin" +:+ digits +:+ ".proto".

(** The version an entry name declares, if any: the tests of the loop of
    [readProtoVersionBlobRefs] on one name. *)
Definition declaredVersion (name : string) : option Version :=
  if Strings.HasPrefix name "tfplugin" && Strings.HasSuffix name ".proto"
  then
    mid ← Strings.slice name (Strings.len "tfplugin")
                        (Strings.len name - Strings.len ".proto");
    Versions.ParseVersion (mid +:+ ".0")
  else None.

(** [appended r r' w]: from [r] to [r'] the objects [w] were written, in
    this order, and no tag was set. *)
Definition appended (r r' : Repository) (w : list Object) : Prop :=
  objects r' = objects r ++ w ∧ tags r' = tags r.

(** What a run of [slurpDirIntoGitTree] on [node] leaves behind: trees and
    blobs appended to the store, no tag touched and, when it returns a
    hash, the hash of the directory, whose tree object is in the store. *)
Definition slurpPost (env : Env) (node : FsNode) (r : Repository)
           (out : (Error + Hash) * Repository) : Prop :=
  ∃ w, appended r out.2 w ∧ Forall isTreeOrBlob w ∧
       ∀ h, out.1 = inr h →
            h = nodeHash env node ∧
            ∃ es, TreeObject es ∈ w ∧ hashObject env (TreeObject es) = h.

(** The root tree of the build directory [tmp] is among the objects [w]. *)
Definition rootTreeIn (env : Env) (tmp : FsNode) (w : list Object) : Prop :=
  ∃ es, TreeObject es ∈ w ∧ hashObject env (TreeObject es) = nodeHash env tmp.

(** The ways lines 231 to 263 can end for a version [v] with build
    directory [tmp], from the repository [r]: the result and the
    repository left behind.  [c] and [t] are the commit and the tag object
    of the version. *)
Inductive releaseStep (env : Env) (v : Version) (tmp : FsNode)
          (r : Repository) : Error + unit → Repository → Prop :=
| step_no_commit e w r' :
    (* the tree or the commit could not be written *)
    Forall isTreeOrBlob w → appended r r' w →
    releaseStep env v tmp r (inl e) r'
| step_no_tag_object cause w r' :
    (* the commit is written, CreateTag failed before its tag object *)
    let c := commitOf v (nodeHash env tmp) (Now env v) in
    Forall isTreeOrBlob w → rootTreeIn env tmp w →
    appended r r' (w ++ [CommitObject c]) →
    releaseStep env v tmp r (inl (ErrWriteTag v cause)) r'
| step_no_reference cause w r' :
    (* the tag object is written, its reference could not be set *)
    let c := commitOf v (nodeHash env tmp) (Now env v) in
    Forall isTreeOrBlob w → rootTreeIn env tmp w →
    appended r r' (w ++ [CommitObject c; TagObject (tagOf env v c)]) →
    releaseStep env v tmp r (inl (ErrWriteTag v cause)) r'
| step_released w r' :
    let c := commitOf v (nodeHash env tmp) (Now env v) in
    let t := tagOf env v c in
    Forall isTreeOrBlob w → rootTreeIn env tmp w →
    objects r' = objects r ++ w ++ [CommitObject c; TagObject t] →
    tags r !! tagNameOf v = None →
    tags r' = <[tagNameOf v := hashObject env (TagObject t)]> (tags r) →
    releaseStep env v tmp r (inr tt) r'.

(** The runs of the loop of [createStableTags] over [blobs] from the
    repository [r]: the result and the repository left behind. *)
Inductive Run (env : Env) :
  list (Version * Hash) → Repository → Error + unit → Repository → Prop :=
| run_done r :
    Run env [] r (inr tt) r
| run_skip v blobHash rest r h res r' :
    (* the tag exists: the version is skipped *)
    Repository_Tag env r (tagNameOf v) = inr h →
    Run env rest r res r' →
    Run env ((v, blobHash) :: rest) r res r'
| run_lookup_failed v blobHash rest r err :
    (* the lookup of the tag failed *)
    Repository_Tag env r (tagNameOf v) = inl err → err ≠ ErrTagNotFound →
    Run env ((v, blobHash) :: rest) r
        (inl (ErrCheckTag (tagNameOf v) err)) r
| run_stage_failed v blobHash rest r e :
    (* the build directory could not be made *)
    Repository_Tag env r (tagNameOf v) = inl ErrTagNotFound →
    Run env ((v, blobHash) :: rest) r (inl e) r
| run_release_failed v blobHash rest r tmp e r' :
    Repository_Tag env r (tagNameOf v) = inl ErrTagNotFound →
    releaseStep env v tmp r (inl e) r' →
    Run env ((v, blobHash) :: rest) r (inl e) r'
| run_released v blobHash rest r tmp r1 res r' :
    Repository_Tag env r (tagNameOf v) = inl ErrTagNotFound →
    releaseStep env v tmp r (inr tt) r1 →
    Run env rest r1 res r' →
    Run env ((v, blobHash) :: rest) r res r'.

(** The objects a run over the catalog [blobs] may write: trees, blobs,
    and the commit and tag object of a version of the catalog. *)
Definition releaseObject (env : Env) (blobs : list (Version * Hash))
           (o : Object) : Prop :=
  match o with
  | CommitObject c =>
      ∃ v th, v ∈ blobs.*1 ∧ c = commitOf v th (Now env v)
  | TagObject t =>
      ∃ v th, v ∈ blobs.*1 ∧ t = tagOf env v (commitOf v th (Now env v))
  | _ => True
  end.

(** A string without a dot. *)
Definition hasDot (s : string) : bool :=
  existsb (λ c, Ascii.eqb c ".") (list_ascii_of_string s).

(** The names the loop of [readProtoVersionBlobRefs] accepts, in words of
    the names themselves: [tfplugin<mid>.proto] where [<mid>.0] parses as
    a version. *)
Definition declares (name : string) (v : Version) : Prop :=
  ∃ mid, name = "tfplugin" +:+ mid +:+ ".proto" ∧
         Versions.ParseVersion (mid +:+ ".0") = Some v.

(** One round of the loop of [readProtoVersionBlobRefs] on the map. *)
Definition recordEntry (ret : gmap Version Hash) (entry : TreeEntry)
  : gmap Version Hash :=
  match declaredVersion (Git.Name entry) with
  | Some version => <[version := Git.EntryHash entry]> ret
  | None => ret
  end.

(** The order of tree entries by name. *)
Definition entry_le (x y : TreeEntry) : Prop :=
  String.leb (Git.Name x) (Git.Name y) = true.

(** The invariant of the target repository. *)
Definition repositorySound (env : Env) (r : Repository) : Prop :=
  logOrdered env (objects r) ∧ tagsResolve env r.

(** The number of commit objects and of tag objects among [w]. *)
Definition countCommits (w : list Object) : nat :=
  length (filter (λ o, isCommit o = true) w).

Definition countTags (w : list Object) : nat :=
  length (filter (λ o, isTag o = true) w).

(** The tag names of a catalog. *)
Definition catalogTags (blobs : list (Version * Hash)) : gset string :=
  list_to_set (tagNameOf <$> blobs.*1).

(** The entries of a catalog whose tag the repository lacks. *)
Definition unreleased (r : Repository) (blobs : list (Version * Hash))
  : list (Version * Hash) :=
  filter (λ b, tags r !! tagNameOf b.1 = None) blobs.

(* ===================================================================== *)
(** ** Lemmas on strings and sorting *)

Lemma FsNode_ind' (P : FsNode → Prop) :
  (∀ k data, P (FsFile k data)) →
  (∀ listing, Forall (λ e, P e.2) listing → P (FsDir listing)) →
  ∀ n, P n.
Proof.
  intros Hfile Hdir. fix IH 1. intros [k data|listing].
  - apply Hfile.
  - apply Hdir. induction listing as [|[name child] rest IHrest].
    + constructor.
    + constructor; [apply IH | apply IHrest].
Qed.

Section SortMap.
Context {A B : Type} (R : relation A) (R' : relation B) (h : A → B).
Context `{∀ x y, Decision (R x y)} `{∀ x y, Decision (R' x y)}.
Hypothesis R_h : ∀ x y, R x y ↔ R' (h x) (h y).

Let stack_map (st : list (option (list A))) : list (option (list B)) :=
  fmap (M:=list) (fmap (M:=option) (fmap (M:=list) h)) st.

Lemma list_merge_map (l1 l2 : list A) :
  list_merge R' (h <$> l1) (h <$> l2) = h <$> list_merge R l1 l2.
Proof.
  revert l2. induction l1 as [|x1 l1 IH1]; intros l2; [by destruct l2|].
  induction l2 as [|x2 l2 IH2]; [done|].
  cbn [fmap list_fmap list_merge] in *.
  destruct (decide (R x1 x2)) as [Hr|Hr];
    destruct (decide (R' (h x1) (h x2))) as [Hr'|Hr'];
    try (exfalso; apply R_h in Hr || apply R_h in Hr'; contradiction).
  - cbn. f_equal. apply (IH1 (x2 :: l2)).
  - cbn. f_equal. apply IH2.
Qed.

Lemma merge_list_to_stack_map (st : list (option (list A))) (l : list A) :
  merge_list_to_stack R' (stack_map st) (h <$> l)
  = stack_map (merge_list_to_stack R st l).
Proof.
  revert l. induction st as [|[l'|] st IH]; intros l; cbn; [done| |done].
  f_equal. rewrite list_merge_map. fold (stack_map st). apply IH.
Qed.

Lemma merge_stack_map (st : list (option (list A))) :
  merge_stack R' (stack_map st) = h <$> merge_stack R st.
Proof.
  induction st as [|[l'|] st IH]; cbn; [done| |done].
  fold (stack_map st). rewrite IH. apply list_merge_map.
Qed.

Lemma merge_sort_aux_map (st : list (option (list A))) (l : list A) :
  merge_sort_aux R' (stack_map st) (h <$> l)
  = h <$> merge_sort_aux R st l.
Proof.
  revert st. induction l as [|x l IH]; intros st; cbn.
  - apply merge_stack_map.
  - rewrite <- IH. f_equal.
    apply (merge_list_to_stack_map st [x]).
Qed.

Lemma merge_sort_map (l : list A) :
  merge_sort R' (h <$> l) = h <$> merge_sort R l.
Proof. apply (merge_sort_aux_map [] l). Qed.
End SortMap.

(** [ReadDir] looks at names only. *)
Lemma ReadDir_map {A B} (f : string → A → B) (l : list (string * A)) :
  FS.ReadDir (map (λ e, (e.1, f e.1 e.2)) l)
  = map (λ e, (e.1, f e.1 e.2)) (FS.ReadDir l).
Proof.
  unfold FS.ReadDir.
  apply (merge_sort_map FS.name_le FS.name_le (λ e, (e.1, f e.1 e.2))).
  intros x y. reflexivity.
Qed.

Lemma ReadDir_perm {A} (l : list (string * A)) : FS.ReadDir l ≡ₚ l.
Proof. apply merge_sort_Permutation. Qed.

(* ===================================================================== *)
(** ** Lemmas on the monad and on go-git *)

Lemma appended_refl r : appended r r [].
Proof. split; [by rewrite app_nil_r | done]. Qed.

Lemma appended_trans r1 r2 r3 w1 w2 :
  appended r1 r2 w1 → appended r2 r3 w2 → appended r1 r3 (w1 ++ w2).
Proof.
  intros [Ho1 Ht1] [Ho2 Ht2]. split.
  - by rewrite Ho2, Ho1, app_assoc.
  - by rewrite Ht2.
Qed.

Lemma bind_inv {E A B} (m : M E A) (k : A → M E B) r res r' :
  bind m k r = (res, r') →
  (∃ e, m r = (inl e, r') ∧ res = inl e) ∨
  (∃ a r1, m r = (inr a, r1) ∧ k a r1 = (res, r')).
Proof.
  unfold bind. destruct (m r) as [[e|a] r1]; intros Heq.
  - left. exists e. by inversion Heq.
  - right. by exists a, r1.
Qed.

Lemma wrap_inv {E E' A} (f : E → E') (m : M E A) r res r' :
  wrap f m r = (res, r') →
  (∃ e, m r = (inl e, r') ∧ res = inl (f e)) ∨
  (∃ a, m r = (inr a, r') ∧ res = inr a).
Proof.
  unfold wrap. destruct (m r) as [[e|a] r1]; intros Heq; inversion Heq.
  - left. by exists e.
  - right. by exists a.
Qed.

Lemma check_inv {E} (fault : option string) (f : string → E) r res r' :
  check fault f r = (res, r') →
  r' = r ∧ ((∃ msg, fault = Some msg ∧ res = inl (f msg)) ∨
            (fault = None ∧ res = inr tt)).
Proof.
  unfold check, throw, ret. destruct fault as [msg|]; intros Heq;
    inversion Heq; split; eauto.
Qed.

Lemma lift_inv {E C A} (x : C + A) (f : C → E) r res r' :
  lift x f r = (res, r') →
  r' = r ∧ ((∃ cause, x = inl cause ∧ res = inl (f cause)) ∨
            (∃ a, x = inr a ∧ res = inr a)).
Proof.
  unfold lift, throw, ret. destruct x as [cause|a]; intros Heq;
    inversion Heq; split; eauto.
Qed.

Lemma SetEncodedObject_inv env o r res r' :
  SetEncodedObject env o r = (res, r') →
  (∃ msg, res = inl (ErrOther msg) ∧ r' = r) ∨
  (res = inr (hashObject env o) ∧ appended r r' [o]).
Proof.
  unfold SetEncodedObject. destruct (storeFault env r o) as [msg|];
    intros Heq; inversion Heq; [left; eauto | right].
  by repeat split.
Qed.

(** Inversion of a run of monadic code: one case per way it can end. *)
Ltac inv_run :=
  repeat
    (match goal with
     | H : bind _ _ _ = _ |- _ =>
         apply bind_inv in H as [(? & H & ?)|(? & ? & ? & H)]
     | H : wrap _ _ _ = _ |- _ =>
         apply wrap_inv in H as [(? & H & ?)|(? & H & ?)]
     | H : check _ _ _ = _ |- _ =>
         apply check_inv in H as [? [(? & ? & ?)|[? ?]]]
     | H : lift _ _ _ = _ |- _ =>
         apply lift_inv in H as [? [(? & ? & ?)|(? & ? & ?)]]
     | H : SetEncodedObject _ _ _ = _ |- _ =>
         apply SetEncodedObject_inv in H as [(? & ? & ?)|[? ?]]
     | H : ret _ _ = _ |- _ => unfold ret in H
     | H : throw _ _ = _ |- _ => unfold throw in H
     end; cbv beta in *; simplify_eq).

(* ===================================================================== *)
(** ** Lemmas on slurpDirIntoGitTree *)

Lemma slurpFile_spec env dir name data r res r' :
  slurpFile env dir name data r = (res, r') →
  ∃ w, appended r r' w ∧ Forall isTreeOrBlob w ∧
       ∀ h, res = inr h → h = hashObject env (BlobObject data).
Proof.
  unfold slurpFile. intros H. inv_run.
  all: try (exists []; split; [apply appended_refl|]; split; [constructor|done]).
  exists [BlobObject data]. split; [done|]. split; [by repeat constructor|].
  by intros h [= <-].
Qed.

Lemma slurpEntry_spec env dir name info (recur : M Error Hash) r res r' :
  (∀ r0, slurpPost env info r0 (recur r0)) →
  match info with
  | FsFile _ data => slurpFile env dir name data
  | FsDir _ => recur
  end r = (res, r') →
  ∃ w, appended r r' w ∧ Forall isTreeOrBlob w ∧
       ∀ h, res = inr h → h = nodeHash env info.
Proof.
  intros Hrecur H. destruct info as [k data|listing].
  - apply slurpFile_spec in H. exact H.
  - specialize (Hrecur r). unfold slurpPost in Hrecur. rewrite H in Hrecur.
    destruct Hrecur as (w & Happ & Hw & Hh).
    exists w. split; [exact Happ|]. split; [exact Hw|].
    intros h Hres. by apply Hh.
Qed.

Lemma slurpEntries_spec env dir
      (entries : list (string * (FsNode * M Error Hash))) :
  Forall (λ e, ∀ r, slurpPost env e.2.1 r (e.2.2 r)) entries →
  ∀ tree r res r',
    slurpEntries env dir entries tree r = (res, r') →
    ∃ w, appended r r' w ∧ Forall isTreeOrBlob w ∧
         ∀ tree', res = inr tree' →
                  tree' = tree ++ map (λ e, entryOf env (e.1, e.2.1)) entries.
Proof.
  induction 1 as [|[name [info recur]] rest Hrecur _ IH]; intros tree r res r' H.
  - cbn in H. inv_run. exists []. split; [apply appended_refl|].
    split; [constructor|]. intros ? [= <-]. by rewrite app_nil_r.
  - cbn [slurpEntries] in H. inv_run.
    + exists []. split; [apply appended_refl|]. split; [constructor|done].
    + apply slurpEntry_spec in H as (w & ? & ? & _); [|done].
      exists w. split; [done|]. split; done.
    + match goal with
      | H1 : match info with _ => _ end _ = _ |- _ =>
          apply slurpEntry_spec in H1 as (w1 & Happ1 & Hw1 & Hh); [|done]
      end.
      apply IH in H as (w2 & Happ2 & Hw2 & Htree).
      exists (w1 ++ w2). split; [by eapply appended_trans|].
      split; [by apply Forall_app|].
      intros tree' ->. rewrite (Htree _ eq_refl), <- app_assoc. cbn.
      do 3 f_equal. unfold entryOf. cbn. f_equal.
      * unfold gitMode.
        match goal with H1 : FS.NewFromOSFileMode _ = _ |- _ => by rewrite H1 end.
      * by apply Hh.
Qed.

Lemma ReadDir_with {A} (F : string → FsNode → A) (listing : list (string * FsNode)) :
  FS.ReadDir (map (λ '(name, child), (name, (child, F name child))) listing)
  = map (λ e, (e.1, (e.2, F e.1 e.2))) (FS.ReadDir listing).
Proof.
  rewrite <- (ReadDir_map (λ name child, (child, F name child))).
  f_equal. apply map_ext. by intros [name child].
Qed.

Lemma nodeHash_dir env listing :
  nodeHash env (FsDir listing)
  = hashObject env (TreeObject (map (entryOf env) (FS.ReadDir listing))).
Proof.
  cbn [nodeHash]. do 2 f_equal.
  rewrite (ReadDir_with (λ _ child, nodeHash env child)), map_map.
  apply map_ext. by intros [name child].
Qed.

Lemma slurpDirIntoGitTree_spec env node :
  ∀ dir r, slurpPost env node r (slurpDirIntoGitTree env dir node r).
Proof.
  induction node as [k data|listing IH] using FsNode_ind'; intros dir r.
  - exists []. cbn. split; [apply appended_refl|]. split; [constructor|done].
  - assert (Forall (λ e : string * (FsNode * M Error Hash),
                      ∀ r0, slurpPost env e.2.1 r0 (e.2.2 r0))
              (FS.ReadDir
                 (map (λ '(name, child),
                         (name, (child,
                                 slurpDirIntoGitTree env (Strings.Join dir name)
                                                     child)))
                      listing))) as Hclosures.
    { rewrite ReadDir_perm. apply Forall_map.
      eapply Forall_impl; [exact IH|]. intros [name child] Hc r0. apply Hc. }
    unfold slurpPost.
    destruct (slurpDirIntoGitTree env dir (FsDir listing) r) as [res r'] eqn:H.
    cbn [slurpDirIntoGitTree] in H. cbn [fst snd]. inv_run.
    all: try match goal with
             | Hs : slurpEntries _ _ _ _ _ = _ |- _ =>
                 apply slurpEntries_spec in Hs as (w & Happ & Hw & Htree);
                 [|done]
             end.
    + exists []. split; [apply appended_refl|]. split; [constructor|done].
    + exists w. split; [done|]. split; done.
    + exists w. split; [done|]. split; done.
    + exists w. split; [done|]. split; done.
    + specialize (Htree _ eq_refl). cbn [app] in Htree.
      rewrite (ReadDir_with
                 (λ name child,
                    slurpDirIntoGitTree env (Strings.Join dir name) child)),
        map_map in Htree. cbn in Htree.
      match goal with Ha : appended _ r' [_] |- _ => rename Ha into Hlast end.
      eexists (w ++ [_]). split; [by eapply appended_trans|].
      split; [apply Forall_app; split; [done|by repeat constructor]|].
      intros h [= <-]. split.
      * rewrite nodeHash_dir. do 2 f_equal. rewrite Htree.
        apply map_ext. by intros [name child].
      * eexists. split; [|done]. apply elem_of_app. right.
        by apply list_elem_of_singleton.
Qed.

(* ===================================================================== *)
(** ** Lemmas on createStableTags: one version, and the loop as a relation *)

Lemma CreateTag_inv env name hash tagger message r res r' :
  CreateTag env name hash tagger message r = (res, r') →
  let t := TagObject (mkTag name tagger message hash) in
  (∃ e, res = inl e ∧ r' = r) ∨
  (∃ e, res = inl e ∧ appended r r' [t]) ∨
  (res = inr (hashObject env t) ∧ objects r' = objects r ++ [t] ∧
   tags r !! name = None ∧
   tags r' = <[name := hashObject env t]> (tags r)).
Proof.
  unfold CreateTag, Repository_Tag. intros H.
  destruct (refFault env r name) as [msg|].
  { left. eexists. by inversion H. }
  destruct (tags r !! name) as [h|] eqn:Hname.
  { left. eexists. by inversion H. }
  inv_run.
  - left. eauto.
  - destruct (setRefFault env _ name) as [msg|]; simplify_eq.
    + right. left. eauto.
    + right. right. cbn.
      match goal with Ha : appended r _ _ |- _ => destruct Ha as [Ho Ht] end.
      by rewrite Ho, Ht.
Qed.

Lemma stageModule_inv env tfRepo v blobHash r res r' :
  stageModule env tfRepo v blobHash r = (res, r') → r' = r.
Proof. unfold stageModule. intros H. by inv_run. Qed.

(** Chains of [appended] facts. *)
Ltac solve_appended :=
  repeat match goal with
         | H : appended _ _ _ |- _ =>
             let Ho := fresh "Ho" in let Ht := fresh "Ht" in
             destruct H as [Ho Ht]
         end;
  try split;
  repeat match goal with
         | H : objects ?x = _ |- context [objects ?x] => rewrite H
         | H : tags ?x = _ |- context [tags ?x] => rewrite H
         end;
  rewrite <- ?app_assoc; try done.

Lemma commitAndTag_spec env v tmpDir tmp r res r' :
  commitAndTag env v (tagNameOf v) tmpDir tmp r = (res, r') →
  releaseStep env v tmp r res r'.
Proof.
  unfold commitAndTag. intros H. inv_run.
  all: repeat match goal with
         | Hs : slurpDirIntoGitTree _ _ _ _ = _ |- _ =>
             let Hp := fresh "Hpost" in
             pose proof (slurpDirIntoGitTree_spec env tmp tmpDir r) as Hp;
             unfold slurpPost in Hp; rewrite Hs in Hp; clear Hs;
             destruct Hp as (w & Happ & Hw & Hh); cbn [fst snd] in *
         | Hh : ∀ h, inr ?x = inr h → _ |- _ =>
             destruct (Hh _ eq_refl) as [-> Hroot]; clear Hh
         | Hc : CreateTag _ _ _ _ _ _ = _ |- _ =>
             apply CreateTag_inv in Hc
               as [(? & ? & ?)|[(? & ? & Htag)|(? & Ho & Hnone & Ht)]];
             simplify_eq
         end.
  - by eapply step_no_commit.
  - by eapply step_no_commit.
  - by eapply step_no_commit.
  - eapply step_no_tag_object; [done..|]. solve_appended.
  - eapply step_no_reference; [done..|]. solve_appended.
  - eapply step_released; [done..| | |].
    + solve_appended.
    + solve_appended.
      repeat match goal with
             | H : tags _ = tags ?y |- context [tags ?y] => rewrite <- H
             end.
      done.
    + solve_appended.
Qed.

Lemma createStableTags_Run env tfRepo blobs :
  ∀ r res r',
    createStableTags env tfRepo blobs r = (res, r') → Run env blobs r res r'.
Proof.
  induction blobs as [|[v blobHash] rest IH]; intros r res r' H.
  - cbn in H. inv_run. constructor.
  - cbn [createStableTags] in H.
    destruct (Repository_Tag env r (tagNameOf v)) as [err|h] eqn:Htag.
    + destruct (decide (err = ErrTagNotFound)) as [->|Hne].
      * inv_run.
        -- match goal with
           | Hs : stageModule _ _ _ _ _ = _ |- _ =>
               apply stageModule_inv in Hs as ->
           end.
           by apply run_stage_failed.
        -- match goal with
           | Hs : stageModule _ _ _ _ _ = _ |- _ =>
               apply stageModule_inv in Hs as ->
           end.
           match goal with
           | Hc : commitAndTag _ _ _ _ _ _ = _ |- _ =>
               apply commitAndTag_spec in Hc
           end.
           by eapply run_release_failed.
        -- match goal with
           | Hs : stageModule _ _ _ _ _ = _ |- _ =>
               apply stageModule_inv in Hs as ->
           end.
           match goal with
           | Hc : commitAndTag _ _ _ _ _ _ = _ |- _ =>
               apply commitAndTag_spec in Hc
           end.
           match goal with
           | Hr : releaseStep _ _ _ _ (inr ?u) _ |- _ => destruct u
           end.
           eapply run_released; [done..|]. by apply IH.
      * inversion H; subst. by apply run_lookup_failed.
    + eapply run_skip; [done|]. by apply IH.
Qed.

Lemma createStableTags_app env tfRepo pre post r :
  createStableTags env tfRepo (pre ++ post) r
  = bind (createStableTags env tfRepo pre)
         (λ _, createStableTags env tfRepo post) r.
Proof.
  revert r. induction pre as [|[v blobHash] pre IH]; intros r.
  { unfold bind. by cbn. }
  cbn [app createStableTags].
  destruct (Repository_Tag env r (tagNameOf v)) as [err|h] eqn:Htag.
  - destruct (decide (err = ErrTagNotFound)) as [->|Hne].
    + unfold bind at 1 2 3. cbn [createStableTags]. rewrite Htag.
      rewrite decide_True by done. unfold bind.
      destruct (stageModule env tfRepo v blobHash r) as [[e|staged] r1]; [done|].
      destruct (commitAndTag env v (tagNameOf v) staged.1 staged.2 r1)
        as [[e|u] r2]; [done|].
      rewrite IH. done.
    + unfold bind. cbn [createStableTags]. rewrite Htag.
      by rewrite decide_False by done.
  - rewrite IH. unfold bind. cbn [createStableTags]. by rewrite Htag.
Qed.

(* ===================================================================== *)
(** ** Lemmas on what a run writes *)


Lemma fst_sub_head (x : Version * Hash) (l : list (Version * Hash)) :
  [x].*1 ⊆ (x :: l).*1.
Proof.
  intros y Hy. cbn in *. apply list_elem_of_singleton in Hy as ->.
  apply list_elem_of_here.
Qed.

Lemma releaseObject_mono env blobs blobs' o :
  blobs.*1 ⊆ blobs'.*1 → releaseObject env blobs o → releaseObject env blobs' o.
Proof.
  intros Hsub. destruct o as [| |c|t]; cbn; try done.
  - intros (v & th & Hv & ->). exists v, th. split; [by apply Hsub|done].
  - intros (v & th & Hv & ->). exists v, th. split; [by apply Hsub|done].
Qed.

Lemma isTreeOrBlob_releaseObject env blobs w :
  Forall isTreeOrBlob w → Forall (releaseObject env blobs) w.
Proof. intros H. eapply Forall_impl; [exact H|]. by intros [| | |]. Qed.

Lemma releaseStep_writes env v blobHash tmp r res r' :
  releaseStep env v tmp r res r' →
  ∃ w, objects r' = objects r ++ w ∧
       Forall (releaseObject env [(v, blobHash)]) w.
Proof.
  assert (v ∈ [(v, blobHash)].*1) as Hv by (cbn; apply list_elem_of_here).
  destruct 1 as [e w r' Hw [Ho _]|cause w r' c Hw _ [Ho _]
                |cause w r' c Hw _ [Ho _]|w r' c t Hw _ Ho _ _].
  - exists w. split; [done|]. by apply isTreeOrBlob_releaseObject.
  - eexists. split; [done|]. apply Forall_app.
    split; [by apply isTreeOrBlob_releaseObject|].
    repeat constructor. by exists v, (nodeHash env tmp).
  - eexists. split; [done|]. apply Forall_app.
    split; [by apply isTreeOrBlob_releaseObject|].
    repeat constructor; by exists v, (nodeHash env tmp).
  - eexists. split; [done|]. apply Forall_app.
    split; [by apply isTreeOrBlob_releaseObject|].
    repeat constructor; by exists v, (nodeHash env tmp).
Qed.


(* ===================================================================== *)
(** ** Lemmas on versions and on the names of protocol definitions *)

Lemma split_dots_no_dot s :
  ∀ cur, hasDot s = false → ∃ x, Versions.split_dots cur s = [x].
Proof.
  induction s as [|c s IH]; intros cur Hs; [by eexists|].
  unfold hasDot in Hs. cbn [list_ascii_of_string existsb] in Hs.
  apply orb_false_iff in Hs as [Hc Hs].
  cbn [Versions.split_dots]. rewrite Hc. by apply IH.
Qed.

(** A string without a dot has no minor component: it is rejected. *)
Lemma ParseVersion_needs_minor s :
  Versions.ParseVersion s = None ∨ hasDot s = true.
Proof.
  destruct (hasDot s) eqn:Hs; [by right|left].
  unfold Versions.ParseVersion.
  by destruct (split_dots_no_dot s "" Hs) as [x ->].
Qed.

Lemma LessThan_lexicographic v w :
  Versions.LessThan v w = true ↔
  (Major v < Major w)%N ∨
  (Major v = Major w ∧
   ((Minor v < Minor w)%N ∨
    (Minor v = Minor w ∧ (Build v < Build w)%N))).
Proof.
  unfold Versions.LessThan, Versions.compare.
  destruct (N.compare_spec (Major v) (Major w));
    destruct (N.compare_spec (Minor v) (Minor w));
    destruct (N.compare_spec (Build v) (Build w));
    split; try done; try lia; intros _; lia.
Qed.

Lemma append_cons c (a b : string) : String c a +:+ b = String c (a +:+ b).
Proof. reflexivity. Qed.

Lemma append_nil (b : string) : "" +:+ b = b.
Proof. reflexivity. Qed.

Lemma length_append (a b : string) :
  String.length (a +:+ b) = String.length a + String.length b.
Proof.
  induction a as [|c a IH]; [done|].
  rewrite append_cons. cbn [String.length]. by rewrite IH.
Qed.

Lemma substring_skip (a b : string) k m :
  substring (String.length a + k) m (a +:+ b) = substring k m b.
Proof.
  induction a as [|c a IH]; [done|]. rewrite append_cons. exact IH.
Qed.

Lemma substring_take (a b : string) :
  substring 0 (String.length a) (a +:+ b) = a.
Proof.
  induction a as [|c a IH]; [by destruct b|].
  rewrite append_cons. cbn [String.length substring]. by rewrite IH.
Qed.

Lemma substring_all (a : string) : substring 0 (String.length a) a = a.
Proof. induction a as [|c a IH]; cbn; [done|by rewrite IH]. Qed.

Lemma substring_split (s : string) (n : nat) :
  (n <= String.length s)%nat →
  s = substring 0 n s +:+ substring n (String.length s - n) s.
Proof.
  revert n. induction s as [|c s IH]; intros [|n] Hn;
    cbn [String.length substring Nat.sub] in *; try done; try lia.
  - rewrite append_nil. by rewrite substring_all.
  - rewrite append_cons. f_equal. apply IH. lia.
Qed.

Lemma prefix_append (p s : string) :
  String.prefix p s = true ↔ ∃ rest, s = p +:+ rest.
Proof.
  revert s. induction p as [|c p IH]; intros s.
  - split; [by exists s|by destruct s].
  - destruct s as [|d s]; [split; [done|by intros [? ?]]|].
    cbn [String.prefix].
    destruct (ascii_dec c d) as [->|Hne].
    + rewrite IH. split; intros [rest Hr]; exists rest.
      * rewrite append_cons. congruence.
      * rewrite append_cons in Hr. congruence.
    + split; [done|]. intros [rest Hr]. rewrite append_cons in Hr.
      congruence.
Qed.

(** A name with prefix [tfplugin] and suffix [.proto] has room for both:
    the slice between them is in range. *)
Lemma name_shape name :
  Strings.HasPrefix name "tfplugin" && Strings.HasSuffix name ".proto" = true ↔
  ∃ mid, name = "tfplugin" +:+ mid +:+ ".proto".
Proof.
  unfold Strings.HasPrefix, Strings.HasSuffix.
  rewrite !andb_true_iff, prefix_append, Nat.leb_le, bool_decide_eq_true.
  split.
  - intros [[rest ->] [Hlen Hsuf]].
    rewrite length_append in Hsuf, Hlen.
    destruct (decide (String.length rest < 6)%nat) as [Hshort|Hlong].
    { exfalso. clear Hlen.
      destruct rest as [|c1 [|c2 [|c3 [|c4 [|c5 [|c6 rest]]]]]];
        try (vm_compute in Hsuf; discriminate Hsuf).
      cbn [String.length] in Hshort. lia. }
    exists (substring 0 (String.length rest - 6) rest). f_equal.
    replace (String.length "tfplugin" + String.length rest
             - String.length ".proto")
      with (String.length "tfplugin" + (String.length rest - 6)) in Hsuf
      by (cbn; lia).
    rewrite substring_skip in Hsuf.
    rewrite (substring_split rest (String.length rest - 6)) at 1 by lia.
    f_equal. etrans; [|exact Hsuf]. f_equal. cbn. lia.
  - intros [mid ->]. split; [by eexists|].
    rewrite !length_append. split; [lia|].
    replace (String.length "tfplugin"
             + (String.length mid + String.length ".proto")
             - String.length ".proto")
      with (String.length "tfplugin" + (String.length mid + 0)) by lia.
    rewrite substring_skip, substring_skip. done.
Qed.

Lemma slice_mid mid :
  let name := "tfplugin" +:+ mid +:+ ".proto" in
  Strings.slice name (Strings.len "tfplugin")
                (Strings.len name - Strings.len ".proto") = Some mid.
Proof.
  cbn zeta. unfold Strings.slice, Strings.len.
  rewrite !length_append.
  rewrite !(proj2 (Z.leb_le _ _)) by (cbn; lia). cbn [andb].
  f_equal. rewrite Nat2Z.id.
  replace (Z.to_nat _) with (String.length mid) by (cbn; lia).
  rewrite <- (Nat.add_0_r (String.length "tfplugin")), substring_skip.
  apply substring_take.
Qed.

Lemma append_inj_r (a a' b : string) : a +:+ b = a' +:+ b → a = a'.
Proof.
  revert a'. induction a as [|c a IH]; intros [|c' a'] Heq; [done|..].
  - apply (f_equal String.length) in Heq.
    rewrite append_nil, append_cons in Heq. cbn [String.length] in Heq.
    rewrite length_append in Heq. lia.
  - apply (f_equal String.length) in Heq.
    rewrite append_nil, append_cons in Heq. cbn [String.length] in Heq.
    rewrite length_append in Heq. lia.
  - rewrite !append_cons in Heq. injection Heq as -> Heq.
    f_equal. by apply IH.
Qed.

Lemma declaredVersion_declares name v :
  declaredVersion name = Some v ↔ declares name v.
Proof.
  unfold declaredVersion, declares.
  destruct (Strings.HasPrefix name "tfplugin"
            && Strings.HasSuffix name ".proto") eqn:Hshape.
  - apply name_shape in Hshape as [mid ->]. rewrite slice_mid. cbn.
    split; [by exists mid|]. intros (mid' & Heq & Hparse).
    apply (inj (String.app "tfplugin")) in Heq.
    by apply append_inj_r in Heq as ->.
  - split; [done|]. intros (mid & -> & _).
    assert (Strings.HasPrefix ("tfplugin" +:+ mid +:+ ".proto") "tfplugin"
            && Strings.HasSuffix ("tfplugin" +:+ mid +:+ ".proto") ".proto"
            = true) as Hyes by (apply name_shape; by exists mid).
    congruence.
Qed.

Lemma collectProtoVersions_foldl entries :
  ∀ ret, collectProtoVersions entries ret
         = Some (foldl recordEntry ret entries).
Proof.
  induction entries as [|entry rest IH]; intros ret; [done|].
  cbn [collectProtoVersions foldl]. unfold recordEntry at 2, declaredVersion.
  destruct (Strings.HasPrefix (Git.Name entry) "tfplugin"
            && Strings.HasSuffix (Git.Name entry) ".proto") eqn:Hshape;
    cbn [negb]; [|apply IH].
  apply name_shape in Hshape as [mid Hmid]. rewrite Hmid, slice_mid. cbn.
  destruct (Versions.ParseVersion (mid +:+ ".0")); apply IH.
Qed.

Lemma foldl_recordEntry_lookup entries :
  ∀ ret v h,
    foldl recordEntry ret entries !! v = Some h ↔
    (∃ l1 e l2, entries = l1 ++ e :: l2 ∧ declares (Git.Name e) v ∧
                Git.EntryHash e = h ∧
                Forall (λ e', ¬ declares (Git.Name e') v) l2) ∨
    (Forall (λ e', ¬ declares (Git.Name e') v) entries ∧ ret !! v = Some h).
Proof.
  induction entries as [|e rest IH]; intros ret v h; cbn [foldl].
  - split; [by right|]. intros [(l1 & e & l2 & Heq & _)|[_ ?]]; [|done].
    by destruct l1.
  - rewrite IH. unfold recordEntry.
    destruct (declaredVersion (Git.Name e)) as [v'|] eqn:Hdecl.
    + apply declaredVersion_declares in Hdecl.
      split.
      * intros [(l1 & e' & l2 & -> & ? & ? & ?)|[Hnone Hret]].
        -- left. by exists (e :: l1), e', l2.
        -- destruct (decide (v' = v)) as [->|Hne].
           ++ rewrite lookup_insert_eq in Hret. left. exists [], e, rest.
              split; [done|]. split; [done|]. split; [congruence|done].
           ++ rewrite lookup_insert_ne in Hret by done. right.
              split; [|done]. constructor; [|done].
              intros Hd. apply declaredVersion_declares in Hd, Hdecl.
              congruence.
      * intros [(l1 & e' & l2 & Heq & Hd & Hh & Hl2)|[Hnone Hret]].
        -- destruct l1 as [|e0 l1]; simplify_eq/=.
           ++ right. split; [done|]. apply declaredVersion_declares in Hd, Hdecl.
              assert (v' = v) as -> by congruence.
              by rewrite lookup_insert_eq.
           ++ left. by exists l1, e', l2.
        -- apply Forall_cons in Hnone as [Hne Hnone]. right. split; [done|].
           rewrite lookup_insert_ne; [done|]. by intros ->.
    + assert (¬ declares (Git.Name e) v) as Hno.
      { intros Hd. apply declaredVersion_declares in Hd. congruence. }
      split.
      * intros [(l1 & e' & l2 & -> & ? & ? & ?)|[Hnone Hret]].
        -- left. by exists (e :: l1), e', l2.
        -- right. split; [by constructor|done].
      * intros [(l1 & e' & l2 & Heq & Hd & Hh & Hl2)|[Hnone Hret]].
        -- destruct l1 as [|e0 l1]; simplify_eq/=; [done|].
           left. by exists l1, e', l2.
        -- apply Forall_cons in Hnone as [_ Hnone]. by right.
Qed.

(* ===================================================================== *)
(** ** Lemmas on the hash of a directory *)

#[local] Instance entry_le_trans : Transitive entry_le.
Proof.
  intros x y z Hxy Hyz. unfold entry_le in *.
  apply Is_true_true. apply Is_true_true in Hxy, Hyz.
  exact (transitivity (R:=String.le) Hxy Hyz).
Qed.

#[local] Instance name_le_total {A} : Total (@FS.name_le A).
Proof.
  intros a b. unfold FS.name_le.
  destruct (String.leb_total a.1 b.1); auto.
Qed.

Lemma NoDup_fmap_elem {A B} (f : A → B) (l : list A) x y :
  NoDup (f <$> l) → x ∈ l → y ∈ l → f x = f y → x = y.
Proof.
  induction l as [|a l IH]; intros Hnd Hx Hy Hf; [by inversion Hx|].
  cbn in Hnd. apply NoDup_cons in Hnd as [Ha Hnd].
  apply elem_of_cons in Hx as [->|Hx]; apply elem_of_cons in Hy as [->|Hy].
  - done.
  - exfalso. apply Ha. rewrite Hf. by apply list_elem_of_fmap_2.
  - exfalso. apply Ha. rewrite <- Hf. by apply list_elem_of_fmap_2.
  - by apply IH.
Qed.

Lemma shuffled_gitMode n1 n2 : shuffled n1 n2 → gitMode n1 = gitMode n2.
Proof. by destruct 1. Qed.

Lemma ReadDir_sorted env (listing : list (string * FsNode)) :
  Sorted entry_le (entryOf env <$> FS.ReadDir listing).
Proof.
  apply (Sorted_fmap _ FS.name_le); [by intros x y|].
  apply Sorted_merge_sort. apply _.
Qed.

Lemma nodeHash_shuffled env1 env2 n1 :
  (∀ o, hashObject env1 o = hashObject env2 o) →
  ∀ n2, uniqueNames n1 → shuffled n1 n2 →
        nodeHash env1 n1 = nodeHash env2 n2.
Proof.
  intros Hhash.
  induction n1 as [k data|l1 IH] using FsNode_ind'; intros n2 Huniq Hsh.
  - inversion Hsh; subst. cbn. apply Hhash.
  - inversion Hsh as [|? l ? Hpair Hperm]; subst.
    inversion Huniq as [|? Hnames Hchildren]; subst.
    rewrite !nodeHash_dir, Hhash. do 2 f_equal.
    assert (entryOf env1 <$> l1 = entryOf env2 <$> l) as Hentries.
    { clear Hperm Hsh Huniq Hnames.
      induction Hpair as [|[name1 c1] [name2 c2] l1 l [Hname Hc] _ IHp];
        [done|].
      apply Forall_cons in IH as [IHc IH].
      apply Forall_cons in Hchildren as [Hu Hchildren].
      cbn in *. subst name2. f_equal; [|by apply IHp].
      unfold entryOf. cbn. f_equal; [by apply shuffled_gitMode|by apply IHc]. }
    assert (entryOf env1 <$> FS.ReadDir l1 ≡ₚ entryOf env2 <$> FS.ReadDir l2)
      as Hp.
    { rewrite !ReadDir_perm, Hentries. by apply fmap_Permutation. }
    assert (NoDup (Git.Name <$> (entryOf env1 <$> FS.ReadDir l1))) as Hnd.
    { rewrite ReadDir_perm, <- list_fmap_compose.
      by replace (Git.Name ∘ entryOf env1) with (@fst string FsNode). }
    apply (Sorted_unique_strong entry_le);
      [|apply ReadDir_sorted|apply ReadDir_sorted|exact Hp].
    intros x1 x2 Hx1 Hx2 H12 H21.
    apply (NoDup_fmap_elem Git.Name _ _ _ Hnd Hx1); [by rewrite Hp|].
    by apply String.leb_antisym.
Qed.

Lemma nodeHash_ext env1 env2 n :
  (∀ o, hashObject env1 o = hashObject env2 o) →
  nodeHash env1 n = nodeHash env2 n.
Proof.
  intros Hhash. induction n as [k data|l IH] using FsNode_ind'.
  - apply Hhash.
  - rewrite !nodeHash_dir, Hhash. do 2 f_equal.
    apply Forall_fmap_ext_1. rewrite ReadDir_perm.
    eapply Forall_impl; [exact IH|]. intros [name child] Hc.
    unfold entryOf. cbn in *. by rewrite Hc.
Qed.

Lemma releaseStep_released_inv env v tmp r r' :
  releaseStep env v tmp r (inr tt) r' →
  let c := commitOf v (nodeHash env tmp) (Now env v) in
  let t := tagOf env v c in
  ∃ w, Forall isTreeOrBlob w ∧ rootTreeIn env tmp w ∧
       objects r' = objects r ++ w ++ [CommitObject c; TagObject t] ∧
       tags r !! tagNameOf v = None ∧
       tags r' = <[tagNameOf v := hashObject env (TagObject t)]> (tags r).
Proof. inversion 1; subst. cbn zeta. by exists w. Qed.

(* ===================================================================== *)
(** ** Lemmas on the invariant of the target repository *)

Lemma logOrdered_snoc env objs o :
  logOrdered env objs → precedents env objs o → logOrdered env (objs ++ [o]).
Proof.
  intros Hlog Ho l1 o' l2 Heq.
  destruct l2 as [|x l2 _] using rev_ind.
  - apply app_inj_tail in Heq as [-> ->]. exact Ho.
  - rewrite app_comm_cons, app_assoc in Heq.
    apply app_inj_tail in Heq as [Heq _]. by apply (Hlog _ _ l2).
Qed.

Lemma logOrdered_app_trees env objs w :
  logOrdered env objs → Forall isTreeOrBlob w → logOrdered env (objs ++ w).
Proof.
  intros Hlog Hw. induction w as [|o w IH] using rev_ind.
  - by rewrite app_nil_r.
  - apply Forall_app in Hw as [Hw Ho]. rewrite app_assoc.
    apply logOrdered_snoc; [by apply IH|].
    rewrite Forall_singleton in Ho. by destruct o.
Qed.

Lemma logOrdered_release env v tmp objs w :
  let c := commitOf v (nodeHash env tmp) (Now env v) in
  logOrdered env objs → Forall isTreeOrBlob w → rootTreeIn env tmp w →
  logOrdered env (objs ++ w ++ [CommitObject c]) ∧
  logOrdered env (objs ++ w ++ [CommitObject c; TagObject (tagOf env v c)]).
Proof.
  intros c Hlog Hw (es & Hes & Hhash).
  assert (logOrdered env (objs ++ w ++ [CommitObject c])) as Hc.
  { rewrite app_assoc. apply logOrdered_snoc;
      [by apply logOrdered_app_trees|].
    exists es. split; [|done]. apply elem_of_app. by right. }
  split; [done|].
  change [CommitObject c; TagObject (tagOf env v c)]
    with ([CommitObject c] ++ [TagObject (tagOf env v c)]).
  rewrite !app_assoc. apply logOrdered_snoc; [by rewrite <- app_assoc|].
  exists c. split; [|done].
  apply elem_of_app. right. apply list_elem_of_here.
Qed.

Lemma tagsResolve_appended env r r' w :
  tagsResolve env r → appended r r' w → tagsResolve env r'.
Proof.
  intros Hres [Ho Ht] name h Hname. rewrite Ht in Hname.
  destruct (Hres _ _ Hname) as (t & c & ? & ? & ? & ? & ?).
  exists t, c. rewrite Ho.
  repeat split; try done; apply elem_of_app; by left.
Qed.

Lemma releaseStep_sound env v tmp r res r' :
  repositorySound env r → releaseStep env v tmp r res r' →
  repositorySound env r'.
Proof.
  intros [Hlog Hres] Hstep.
  destruct Hstep as [e w r' Hw Happ|cause w r' c Hw Hroot Happ
                    |cause w r' c Hw Hroot Happ|w r' c t Hw Hroot Ho Hnone Ht].
  - split; [|by eapply tagsResolve_appended].
    destruct Happ as [-> _]. by apply logOrdered_app_trees.
  - split; [|by eapply tagsResolve_appended].
    destruct Happ as [-> _]. by apply (logOrdered_release env v tmp).
  - split; [|by eapply tagsResolve_appended].
    destruct Happ as [-> _]. by apply (logOrdered_release env v tmp).
  - split.
    + rewrite Ho. by apply (logOrdered_release env v tmp).
    + intros name h Hname. rewrite Ht in Hname.
      destruct (decide (tagNameOf v = name)) as [<-|Hne].
      * rewrite lookup_insert_eq in Hname. injection Hname as <-.
        exists t, c. rewrite Ho.
        split; [rewrite !elem_of_app; right; right;
                apply list_elem_of_further, list_elem_of_here|].
        split; [done|]. split; [done|].
        split; [rewrite !elem_of_app; right; right; apply list_elem_of_here|].
        done.
      * rewrite lookup_insert_ne in Hname by done.
        destruct (Hres _ _ Hname) as (t' & c' & ? & ? & ? & ? & ?).
        exists t', c'. rewrite Ho.
        repeat split; try done; apply elem_of_app; by left.
Qed.

Lemma Run_sound env blobs r res r' :
  Run env blobs r res r' → repositorySound env r → repositorySound env r'.
Proof.
  induction 1; intros Hsound; eauto using releaseStep_sound.
Qed.

(* ===================================================================== *)
(** ** Lemmas on the tags of a run *)

Lemma releaseStep_mono env v tmp r res r' :
  releaseStep env v tmp r res r' →
  objects r `prefix_of` objects r' ∧ tags r ⊆ tags r'.
Proof.
  destruct 1 as [e w r' Hw [Ho Ht]|cause w r' c Hw Hroot [Ho Ht]
                |cause w r' c Hw Hroot [Ho Ht]|w r' c t Hw Hroot Ho Hnone Ht];
    (split; [by eexists|]); rewrite Ht; try done.
  by apply insert_subseteq.
Qed.

Lemma Run_mono env blobs r res r' :
  Run env blobs r res r' →
  objects r `prefix_of` objects r' ∧ tags r ⊆ tags r'.
Proof.
  induction 1 as [r|v blobHash rest r h res r' _ _ IH|v blobHash rest r err _ _
                 |v blobHash rest r e _|v blobHash rest r tmp e r' _ Hstep
                 |v blobHash rest r tmp r1 res r' _ Hstep _ IH];
    try done; try by eapply releaseStep_mono.
  apply releaseStep_mono in Hstep as [Ho1 Ht1]. destruct IH as [Ho2 Ht2].
  split; by etrans.
Qed.

Lemma Repository_Tag_found env r name h :
  Repository_Tag env r name = inr h → tags r !! name = Some h.
Proof.
  unfold Repository_Tag. destruct (refFault env r name); [done|].
  destruct (tags r !! name); [|done]. by intros [= ->].
Qed.

Lemma Repository_Tag_not_found env r name :
  Repository_Tag env r name = inl ErrTagNotFound → tags r !! name = None.
Proof.
  unfold Repository_Tag. destruct (refFault env r name); [done|].
  by destruct (tags r !! name).
Qed.

(** After a run that returns no error every version of the catalog has its
    tag. *)
Lemma Run_all_tagged env blobs r r' :
  Run env blobs r (inr tt) r' →
  ∀ v, v ∈ blobs.*1 → is_Some (tags r' !! tagNameOf v).
Proof.
  intros Hrun. remember (inr tt) as res eqn:Hres.
  induction Hrun as [r|v blobHash rest r h res r' Htag Hrun IH
                    |v blobHash rest r err _ _
                    |v blobHash rest r e _|v blobHash rest r tmp e r' _ Hstep
                    |v blobHash rest r tmp r1 res r' _ Hstep Hrun IH];
    try done; intros v' Hv'; cbn in Hv'.
  - by apply elem_of_nil in Hv'.
  - apply elem_of_cons in Hv' as [->|Hv']; [|by apply IH].
    apply Repository_Tag_found in Htag.
    apply Run_mono in Hrun as [_ Hsub].
    exists h. by eapply lookup_weaken.
  - apply elem_of_cons in Hv' as [->|Hv']; [|by apply IH].
    apply releaseStep_released_inv in Hstep as (w & _ & _ & _ & _ & Ht).
    apply Run_mono in Hrun as [_ Hsub].
    eexists. eapply lookup_weaken; [|exact Hsub].
    rewrite Ht. apply lookup_insert_eq.
Qed.

Lemma countCommits_app w1 w2 :
  countCommits (w1 ++ w2) = countCommits w1 + countCommits w2.
Proof. unfold countCommits. by rewrite filter_app, length_app. Qed.

Lemma countTags_app w1 w2 :
  countTags (w1 ++ w2) = countTags w1 + countTags w2.
Proof. unfold countTags. by rewrite filter_app, length_app. Qed.

Lemma count_trees w :
  Forall isTreeOrBlob w → countCommits w = 0 ∧ countTags w = 0.
Proof.
  induction 1 as [|o w Ho _ [IHc IHt]]; [done|].
  change (o :: w) with ([o] ++ w).
  rewrite countCommits_app, countTags_app, IHc, IHt. by destruct o.
Qed.

Lemma new_tag_size (t t1 t' : gmap string Hash) name h :
  t !! name = None → t1 = <[name := h]> t → t1 ⊆ t' →
  size (dom t' ∖ dom t) = S (size (dom t' ∖ dom t1)).
Proof.
  intros Hnone -> Hsub.
  assert (name ∈ dom t') as Hin.
  { apply elem_of_dom. exists h. eapply lookup_weaken; [|exact Hsub].
    apply lookup_insert_eq. }
  assert (name ∉ dom t) as Hout by by apply not_elem_of_dom.
  assert (dom t' ∖ dom t = {[name]} ∪ (dom t' ∖ dom (<[name := h]> t)))
    as ->.
  { rewrite dom_insert_L. apply set_eq. intros x.
    destruct (decide (x = name)) as [->|Hne]; set_solver. }
  rewrite size_union, size_singleton; [done|]. rewrite dom_insert_L.
  set_solver.
Qed.

(** A run that returns no error writes one commit and one tag object for
    each tag it adds, and adds the tags of the catalog that were
    missing. *)
Lemma Run_released_count env blobs r r' :
  Run env blobs r (inr tt) r' →
  dom (tags r') = dom (tags r) ∪ catalogTags blobs ∧
  ∃ w, objects r' = objects r ++ w ∧
       countCommits w = size (dom (tags r') ∖ dom (tags r)) ∧
       countTags w = size (dom (tags r') ∖ dom (tags r)).
Proof.
  intros Hrun. remember (inr tt) as res eqn:Hres.
  induction Hrun as [r|v blobHash rest r h res r' Htag Hrun IH
                    |v blobHash rest r err _ _
                    |v blobHash rest r e _|v blobHash rest r tmp e r' _ Hstep
                    |v blobHash rest r tmp r1 res r' Htag Hstep Hrun IH];
    try done.
  - split; [unfold catalogTags; cbn; set_solver|].
    exists []. rewrite app_nil_r, difference_diag_L, size_empty. done.
  - destruct (IH Hres) as (Hdom & w & Ho & Hc & Ht). split; [|by exists w].
    apply Repository_Tag_found in Htag.
    assert (tagNameOf v ∈ dom (tags r)) by (apply elem_of_dom; eauto).
    rewrite Hdom. unfold catalogTags. cbn. set_solver.
  - subst res. destruct (IH eq_refl) as (Hdom & w2 & Ho2 & Hc2 & Ht2).
    apply Run_mono in Hrun as [_ Hsub].
    apply releaseStep_released_inv in Hstep
      as (w1 & Hw1 & _ & Ho1 & Hnone & Ht1).
    split.
    + rewrite Hdom, Ht1, dom_insert_L. unfold catalogTags. cbn. set_solver.
    + eexists. split; [by rewrite Ho2, Ho1, <- !app_assoc|].
      rewrite (new_tag_size _ _ _ _ _ Hnone Ht1 Hsub).
      destruct (count_trees _ Hw1) as [Hc1 Hg1].
      rewrite !countCommits_app, !countTags_app, Hc1, Hg1, Hc2, Ht2. done.
Qed.

(** A run over a catalog whose tags all exist changes nothing; it can only
    fail on a lookup. *)
Lemma Run_idle env blobs r res r' :
  Run env blobs r res r' →
  (∀ v, v ∈ blobs.*1 → is_Some (tags r !! tagNameOf v)) →
  r' = r ∧ (res = inr tt ∨ ∃ name err, res = inl (ErrCheckTag name err)).
Proof.
  induction 1 as [r|v blobHash rest r h res r' Htag Hrun IH
                 |v blobHash rest r err _ _
                 |v blobHash rest r e Htag|v blobHash rest r tmp e r' Htag _
                 |v blobHash rest r tmp r1 res r' Htag _ _ _];
    intros Hall.
  - by split; [|left].
  - apply IH. intros v' Hv'. apply Hall. cbn. by apply list_elem_of_further.
  - split; [done|]. right. by eexists _, _.
  - apply Repository_Tag_not_found in Htag.
    destruct (Hall v) as [h Hh]; [apply list_elem_of_here|]. congruence.
  - apply Repository_Tag_not_found in Htag.
    destruct (Hall v) as [h Hh]; [apply list_elem_of_here|]. congruence.
  - apply Repository_Tag_not_found in Htag.
    destruct (Hall v) as [h Hh]; [apply list_elem_of_here|]. congruence.
Qed.

(** The loop at a version whose tag is not found. *)
Lemma createStableTags_not_found env tfRepo v blobHash rest r :
  Repository_Tag env r (tagNameOf v) = inl ErrTagNotFound →
  createStableTags env tfRepo ((v, blobHash) :: rest) r
  = (staged <~ stageModule env tfRepo v blobHash ;;
     commitAndTag env v (tagNameOf v) staged.1 staged.2 ;;;
     createStableTags env tfRepo rest) r.
Proof.
  intros Htag. cbn [createStableTags]. rewrite Htag.
  by rewrite decide_True by done.
Qed.

(** The loop at a version whose tag cannot be looked up. *)
Lemma createStableTags_lookup_failed env tfRepo v blobHash rest r err :
  Repository_Tag env r (tagNameOf v) = inl err → err ≠ ErrTagNotFound →
  createStableTags env tfRepo ((v, blobHash) :: rest) r
  = (inl (ErrCheckTag (tagNameOf v) err), r).
Proof.
  intros Htag Hne. cbn [createStableTags]. rewrite Htag.
  by rewrite decide_False by done.
Qed.

Lemma unreleased_mono r r1 blobs :
  tags r ⊆ tags r1 → (unreleased r1 blobs).*1 ⊆ (unreleased r blobs).*1.
Proof.
  intros Hsub v Hv. unfold unreleased in *.
  apply list_elem_of_fmap in Hv as ([v' h] & -> & Hb).
  apply list_elem_of_filter in Hb as [Hnone Hb]. cbn in *.
  apply list_elem_of_fmap. exists (v', h). split; [done|].
  apply list_elem_of_filter. split; [|done]. cbn.
  destruct (tags r !! tagNameOf v') as [h0|] eqn:Hr; [|done].
  by rewrite (lookup_weaken _ _ _ _ Hr Hsub) in Hnone.
Qed.

Lemma unreleased_skip r v blobHash rest h :
  tags r !! tagNameOf v = Some h →
  unreleased r ((v, blobHash) :: rest) = unreleased r rest.
Proof.
  intros Hh. unfold unreleased. rewrite filter_cons_False; [done|].
  cbn. by rewrite Hh.
Qed.

Lemma unreleased_keep r v blobHash rest :
  tags r !! tagNameOf v = None →
  unreleased r ((v, blobHash) :: rest) = (v, blobHash) :: unreleased r rest.
Proof. intros Hh. unfold unreleased. by rewrite filter_cons_True. Qed.

Lemma releaseStep_failed_tags env v tmp r e r' :
  releaseStep env v tmp r (inl e) r' → tags r' = tags r.
Proof. inversion 1; subst; by match goal with H : appended _ _ _ |- _ => destruct H end. Qed.

(** A run writes commits and tag objects, and sets tags, only for the
    versions of the catalog whose tag the repository lacked. *)
Lemma Run_writes_unreleased env blobs r res r' :
  Run env blobs r res r' →
  dom (tags r') ⊆ dom (tags r) ∪ catalogTags (unreleased r blobs) ∧
  ∃ w, objects r' = objects r ++ w ∧
       Forall (releaseObject env (unreleased r blobs)) w.
Proof.
  induction 1 as [r|v blobHash rest r h res r' Htag _ IH
                 |v blobHash rest r err _ _
                 |v blobHash rest r e _|v blobHash rest r tmp e r' Htag Hstep
                 |v blobHash rest r tmp r1 res r' Htag Hstep _ IH].
  - split; [set_solver|]. exists []. by rewrite app_nil_r.
  - apply Repository_Tag_found in Htag.
    by rewrite (unreleased_skip _ _ _ _ _ Htag).
  - split; [set_solver|]. exists []. by rewrite app_nil_r.
  - split; [set_solver|]. exists []. by rewrite app_nil_r.
  - apply Repository_Tag_not_found in Htag.
    rewrite (unreleased_keep _ _ _ _ Htag).
    rewrite (releaseStep_failed_tags _ _ _ _ _ _ Hstep).
    apply (releaseStep_writes _ _ blobHash) in Hstep as (w & Ho & Hw).
    split; [set_solver|]. exists w. split; [done|].
    eapply Forall_impl; [exact Hw|]. intros o. apply releaseObject_mono.
    apply fst_sub_head.
  - apply Repository_Tag_not_found in Htag.
    rewrite (unreleased_keep _ _ _ _ Htag).
    pose proof (releaseStep_mono _ _ _ _ _ _ Hstep) as [_ Hsub].
    pose proof (unreleased_mono _ _ rest Hsub) as Hun.
    destruct IH as (Hdom & w2 & Ho2 & Hw2).
    pose proof (releaseStep_released_inv _ _ _ _ _ Hstep)
      as (_ & _ & _ & _ & _ & Ht1).
    apply (releaseStep_writes _ _ blobHash) in Hstep as (w1 & Ho1 & Hw1).
    split.
    + intros name Hname. apply Hdom in Hname.
      apply elem_of_union in Hname as [Hname|Hname].
      * rewrite Ht1, dom_insert_L in Hname. unfold catalogTags. cbn.
        set_solver.
      * apply elem_of_union. right. unfold catalogTags in *.
        apply elem_of_list_to_set in Hname. apply elem_of_list_to_set.
        apply list_elem_of_fmap in Hname as (v' & -> & Hv').
        apply list_elem_of_fmap. exists v'. split; [done|].
        cbn. apply list_elem_of_further. by apply Hun.
    + exists (w1 ++ w2). split; [by rewrite Ho2, Ho1, app_assoc|].
      apply Forall_app. split.
      * eapply Forall_impl; [exact Hw1|]. intros o.
        apply releaseObject_mono, fst_sub_head.
      * eapply Forall_impl; [exact Hw2|]. intros o.
        apply releaseObject_mono. intros v' Hv'. cbn.
        apply list_elem_of_further. by apply Hun.
Qed.

(* ===================================================================== *)
(** ** Idempotency of synthesis *)

(** C1.  Idempotency of synthesis.  A run of [createStableTags] skips
    every version whose tag the repository has: whatever the first run did,
    a second run on the same catalog (in whatever order Go iterates over
    it, whatever the outside world does) keeps every tag of the repository
    and writes commits, tag objects and tags only for the versions of the
    catalog that still have no tag.  When the first run returned no error,
    it added exactly the tags of the catalog that the repository lacked,
    with one commit and one tag object for each, no version is left
    without tag, and the second run changes nothing in the repository: it
    creates no commit and no tag. *)
Theorem synthesis_idempotent
        env1 env2 tfRepo1 tfRepo2 blobs1 blobs2 r0 res1 r1 res2 r2 :
  blobs2 ≡ₚ blobs1 →
  createStableTags env1 tfRepo1 blobs1 r0 = (res1, r1) →
  createStableTags env2 tfRepo2 blobs2 r1 = (res2, r2) →
  tags r1 ⊆ tags r2 ∧
  dom (tags r2) ⊆ dom (tags r1) ∪ catalogTags (unreleased r1 blobs2) ∧
  (∃ w2, objects r2 = objects r1 ++ w2 ∧
         Forall (releaseObject env2 (unreleased r1 blobs2)) w2) ∧
  match res1 with
  | inl _ => True
  | inr _ =>
      unreleased r1 blobs2 = [] ∧
      r2 = r1 ∧
      (res2 = inr tt ∨ ∃ name err, res2 = inl (ErrCheckTag name err)) ∧
      dom (tags r1) = dom (tags r0) ∪ catalogTags blobs1 ∧
      tags r0 ⊆ tags r1 ∧
      ∃ w1, objects r1 = objects r0 ++ w1 ∧
            countCommits w1 = size (dom (tags r1) ∖ dom (tags r0)) ∧
            countTags w1 = size (dom (tags r1) ∖ dom (tags r0))
  end.
Proof.
  intros Hperm H1 H2.
  apply createStableTags_Run in H1, H2.
  destruct (Run_writes_unreleased _ _ _ _ _ H2) as [Hdom2 Hw2].
  pose proof (Run_mono _ _ _ _ _ H2) as [_ Hsub2].
  split; [done|]. split; [done|]. split; [done|].
  destruct res1 as [e|[]]; [done|].
  assert (∀ v, v ∈ blobs2.*1 → is_Some (tags r1 !! tagNameOf v)) as Hall.
  { intros v Hv. apply (Run_all_tagged _ _ _ _ H1). by rewrite <- Hperm. }
  split.
  { destruct (unreleased r1 blobs2) as [|[v h] l] eqn:Hun; [done|].
    assert ((v, h) ∈ unreleased r1 blobs2) as Hin
      by (rewrite Hun; apply list_elem_of_here).
    apply list_elem_of_filter in Hin as [Hnone Hb]. cbn in Hnone.
    destruct (Hall v) as [h' Hh']; [|congruence].
    apply list_elem_of_fmap. by exists (v, h). }
  destruct (Run_idle _ _ _ _ _ H2 Hall) as [-> Hres2].
  destruct (Run_released_count _ _ _ _ H1) as (Hdom & Hw).
  apply Run_mono in H1 as [_ Hsub]. done.
Qed.

(** The theorem at the catalog {5.0, 5.1} and a repository in which v5.0.0
    is released: the first run creates exactly one release, v5.1.0, and the
    second run, which visits the catalog in the other order, creates
    none. *)
Lemma synthesis_idempotent_witness :
  let blobs1 := [(Demo.v5_0, Demo.blobOf Demo.proto50);
                 (Demo.v5_1, Demo.blobOf Demo.proto51)] in
  let blobs2 := [(Demo.v5_1, Demo.blobOf Demo.proto51);
                 (Demo.v5_0, Demo.blobOf Demo.proto50)] in
  let r0 := Demo.released50 in
  let r1 := (createStableTags Demo.env Demo.tfRepo blobs1 r0).2 in
  let out2 := createStableTags (Demo.envAt 7%N) Demo.tfRepo blobs2 r1 in
  (dom (tags r0) = {["v5.0.0"]} ∧
   dom (tags r1) ∖ dom (tags r0) = {["v5.1.0"]} ∧
   size (dom (tags r1) ∖ dom (tags r0)) = 1) ∧
  tags r1 ⊆ tags out2.2 ∧
  dom (tags out2.2) ⊆ dom (tags r1) ∪ catalogTags (unreleased r1 blobs2) ∧
  (∃ w2, objects out2.2 = objects r1 ++ w2 ∧
         Forall (releaseObject (Demo.envAt 7%N) (unreleased r1 blobs2)) w2) ∧
  unreleased r1 blobs2 = [] ∧
  out2.2 = r1 ∧
  (out2.1 = inr tt ∨ ∃ name err, out2.1 = inl (ErrCheckTag name err)) ∧
  dom (tags r1) = dom (tags r0) ∪ catalogTags blobs1 ∧
  tags r0 ⊆ tags r1 ∧
  ∃ w1, objects r1 = objects r0 ++ w1 ∧
        countCommits w1 = size (dom (tags r1) ∖ dom (tags r0)) ∧
        countTags w1 = size (dom (tags r1) ∖ dom (tags r0)).
Proof.
  cbn zeta. split; [repeat split; by vm_compute|].
  apply (synthesis_idempotent Demo.env (Demo.envAt 7%N) Demo.tfRepo
           Demo.tfRepo
           [(Demo.v5_0, Demo.blobOf Demo.proto50);
            (Demo.v5_1, Demo.blobOf Demo.proto51)]
           [(Demo.v5_1, Demo.blobOf Demo.proto51);
            (Demo.v5_0, Demo.blobOf Demo.proto50)]
           Demo.released50 (inr tt)).
  - apply Permutation_swap.
  - by vm_compute.
  - by destruct (createStableTags _ _ _ _).
Defined.


(* ===================================================================== *)
(** ** Failure of the generation of a version *)

(** C2 (as amended).  When the generation of a version fails (its build
    directory cannot be staged: the protocol compiler or a Go tool fails),
    [createStableTags] returns that error at once: the repository is left
    as it was after the versions processed before, whose tags all exist,
    and no version that comes later in the iteration order is processed
    in this run. *)
Theorem generation_failure_aborts
        env tfRepo pre v blobHash post r r1 e r1' :
  createStableTags env tfRepo pre r = (inr tt, r1) →
  Repository_Tag env r1 (tagNameOf v) = inl ErrTagNotFound →
  stageModule env tfRepo v blobHash r1 = (inl e, r1') →
  createStableTags env tfRepo (pre ++ (v, blobHash) :: post) r = (inl e, r1) ∧
  ∀ v', v' ∈ pre.*1 → is_Some (tags r1 !! tagNameOf v').
Proof.
  intros Hpre Htag Hstage. split.
  - rewrite createStableTags_app. unfold bind at 1. rewrite Hpre.
    rewrite createStableTags_not_found by done.
    unfold bind at 1. rewrite Hstage.
    by apply stageModule_inv in Hstage as ->.
  - apply (Run_all_tagged env pre r r1). by apply createStableTags_Run in Hpre.
Qed.

(** The theorem at the catalog {5.0, 5.1, 5.2}, visited in this order,
    where protoc rejects the definition of 5.1. *)
Lemma generation_failure_aborts_witness :
  let pre := [(Demo.v5_0, Demo.blobOf Demo.proto50)] in
  let post := [(Demo.v5_2, Demo.blobOf Demo.proto52)] in
  createStableTags Demo.env Demo.tfRepo
    (pre ++ (Demo.v5_1, Demo.blobOf Demo.protoBad) :: post)
    Git.emptyRepository
  = (inl (ErrProtoc Demo.v5_1 "exit status 1"), Demo.released50) ∧
  ∀ v', v' ∈ pre.*1 → is_Some (tags Demo.released50 !! tagNameOf v').
Proof.
  apply (generation_failure_aborts Demo.env Demo.tfRepo
           [(Demo.v5_0, Demo.blobOf Demo.proto50)] Demo.v5_1
           (Demo.blobOf Demo.protoBad)
           [(Demo.v5_2, Demo.blobOf Demo.proto52)]
           Git.emptyRepository Demo.released50 _ Demo.released50);
    by vm_compute.
Defined.

(** C2 as the specification words it fails: generation fails for 5.1 and
    succeeds for 5.2 (alone, 5.2 is released), yet the run over the catalog
    {5.1, 5.2} that visits 5.1 first returns the error of 5.1 and leaves
    the repository unchanged, without a release for 5.2. *)
Lemma generation_failure_not_isolated :
  let blobs := [(Demo.v5_1, Demo.blobOf Demo.protoBad);
                (Demo.v5_2, Demo.blobOf Demo.proto52)] in
  let out := createStableTags Demo.env Demo.tfRepo blobs Demo.released50 in
  (stageModule Demo.env Demo.tfRepo Demo.v5_1 (Demo.blobOf Demo.protoBad)
               Demo.released50).1
  = inl (ErrProtoc Demo.v5_1 "exit status 1") ∧
  (∃ staged,
      (stageModule Demo.env Demo.tfRepo Demo.v5_2 (Demo.blobOf Demo.proto52)
                   Demo.released50).1 = inr staged) ∧
  (∃ r', createStableTags Demo.env Demo.tfRepo
           [(Demo.v5_2, Demo.blobOf Demo.proto52)] Demo.released50
         = (inr tt, r') ∧ is_Some (tags r' !! "v5.2.0")) ∧
  out.1 = inl (ErrProtoc Demo.v5_1 "exit status 1") ∧
  out.2 = Demo.released50 ∧
  tags out.2 !! "v5.2.0" = None.
Proof.
  cbn zeta. split; [by vm_compute|]. split; [eexists; by vm_compute|].
  split; [eexists; split; [by vm_compute|vm_compute; by eexists]|].
  split; [by vm_compute|]. split; by vm_compute.
Qed.

(* ===================================================================== *)
(** ** Commit message *)




(* ===================================================================== *)
(** ** Objects of two runs *)

(** C4 (as amended).  For a version and a byte-identical generated file
    set, two runs that hash objects alike build the same tree (the same
    tree hash); the commit and the tag object of the two runs are equal up
    to the time stamp of their signatures, which is the time of the run:
    they are identical, with identical hashes, exactly when both runs read
    the same time. *)
Theorem synthesized_objects_across_runs
        env1 env2 v dir1 dir2 tmp r1 r2 r1' r2' :
  (∀ o, hashObject env1 o = hashObject env2 o) →
  commitAndTag env1 v (tagNameOf v) dir1 tmp r1 = (inr tt, r1') →
  commitAndTag env2 v (tagNameOf v) dir2 tmp r2 = (inr tt, r2') →
  ∃ treeHash w1 w2,
    let c1 := mkCommit treeHash (authorAt (Now env1 v))
                       (authorAt (Now env1 v)) (commitMessage v) in
    let c2 := mkCommit treeHash (authorAt (Now env2 v))
                       (authorAt (Now env2 v)) (commitMessage v) in
    let t1 := mkTag (tagNameOf v) (authorAt (Now env1 v)) (commitMessage v)
                    (hashObject env1 (CommitObject c1)) in
    let t2 := mkTag (tagNameOf v) (authorAt (Now env2 v)) (commitMessage v)
                    (hashObject env2 (CommitObject c2)) in
    Forall isTreeOrBlob w1 ∧ Forall isTreeOrBlob w2 ∧
    (∃ es, TreeObject es ∈ w1 ∧ hashObject env1 (TreeObject es) = treeHash) ∧
    (∃ es, TreeObject es ∈ w2 ∧ hashObject env2 (TreeObject es) = treeHash) ∧
    objects r1' = objects r1 ++ w1 ++ [CommitObject c1; TagObject t1] ∧
    objects r2' = objects r2 ++ w2 ++ [CommitObject c2; TagObject t2] ∧
    tags r1' !! tagNameOf v = Some (hashObject env1 (TagObject t1)) ∧
    tags r2' !! tagNameOf v = Some (hashObject env2 (TagObject t2)) ∧
    (c1 = c2 ↔ Now env1 v = Now env2 v) ∧
    (t1 = t2 ↔ Now env1 v = Now env2 v).
Proof.
  intros Hhash H1 H2.
  apply commitAndTag_spec, releaseStep_released_inv in H1
    as (w1 & Hw1 & Hroot1 & Ho1 & _ & Ht1).
  apply commitAndTag_spec, releaseStep_released_inv in H2
    as (w2 & Hw2 & Hroot2 & Ho2 & _ & Ht2).
  exists (nodeHash env1 tmp), w1, w2. cbn zeta.
  split; [done|]. split; [done|]. split; [exact Hroot1|].
  split; [by rewrite (nodeHash_ext env1 env2)|].
  split; [exact Ho1|].
  split; [by rewrite (nodeHash_ext env1 env2)|].
  split; [by rewrite Ht1, lookup_insert_eq|].
  split.
  { rewrite Ht2, lookup_insert_eq.
    by rewrite (nodeHash_ext env1 env2). }
  split.
  - split; [by intros [= ->]|by intros ->].
  - split; [by intros [= -> _]|]. intros Hnow. rewrite Hnow, Hhash. done.
Qed.

(** The theorem at the two runs of the counterexample below. *)
Lemma synthesized_objects_across_runs_witness :
  ∃ treeHash w1 w2,
    let v := Demo.v5_0 in
    let c1 := mkCommit treeHash (authorAt 1%N) (authorAt 1%N)
                       (commitMessage v) in
    let c2 := mkCommit treeHash (authorAt 2%N) (authorAt 2%N)
                       (commitMessage v) in
    let t1 := mkTag (tagNameOf v) (authorAt 1%N) (commitMessage v)
                    (Demo.hash (CommitObject c1)) in
    let t2 := mkTag (tagNameOf v) (authorAt 2%N) (commitMessage v)
                    (Demo.hash (CommitObject c2)) in
    Forall isTreeOrBlob w1 ∧ Forall isTreeOrBlob w2 ∧
    (∃ es, TreeObject es ∈ w1 ∧ Demo.hash (TreeObject es) = treeHash) ∧
    (∃ es, TreeObject es ∈ w2 ∧ Demo.hash (TreeObject es) = treeHash) ∧
    objects (commitAndTag (Demo.envAt 1%N) v (tagNameOf v) "work.git/a"
                          Demo.buildDir Git.emptyRepository).2
    = [] ++ w1 ++ [CommitObject c1; TagObject t1] ∧
    objects (commitAndTag (Demo.envAt 2%N) v (tagNameOf v) "work.git/b"
                          Demo.buildDir Git.emptyRepository).2
    = [] ++ w2 ++ [CommitObject c2; TagObject t2] ∧
    tags (commitAndTag (Demo.envAt 1%N) v (tagNameOf v) "work.git/a"
                       Demo.buildDir Git.emptyRepository).2
      !! tagNameOf v = Some (Demo.hash (TagObject t1)) ∧
    tags (commitAndTag (Demo.envAt 2%N) v (tagNameOf v) "work.git/b"
                       Demo.buildDir Git.emptyRepository).2
      !! tagNameOf v = Some (Demo.hash (TagObject t2)) ∧
    (c1 = c2 ↔ 1%N = 2%N) ∧
    (t1 = t2 ↔ 1%N = 2%N).
Proof.
  apply (synthesized_objects_across_runs (Demo.envAt 1%N) (Demo.envAt 2%N)
           Demo.v5_0 "work.git/a" "work.git/b" Demo.buildDir
           Git.emptyRepository Git.emptyRepository).
  - intros o. reflexivity.
  - by vm_compute.
  - by vm_compute.
Defined.

(** C4 as the specification words it fails: two runs of the loop on the
    same catalog and the same Terraform repository, with the same tools,
    one at time 1 and one at time 2, both succeed and build the same trees
    and blobs, but different commit objects and different tag objects, and
    the tag v5.0.0 ends up pointing at different hashes. *)
Lemma commits_differ_across_runs :
  let run now := createStableTags (Demo.envAt now) Demo.tfRepo
                   [(Demo.v5_0, Demo.blobOf Demo.proto50)]
                   Git.emptyRepository in
  (run 1%N).1 = inr tt ∧ (run 2%N).1 = inr tt ∧
  filter (λ o, isCommit o = false ∧ isTag o = false) (objects (run 1%N).2)
  = filter (λ o, isCommit o = false ∧ isTag o = false) (objects (run 2%N).2) ∧
  filter (λ o, isCommit o = true) (objects (run 1%N).2)
  ≠ filter (λ o, isCommit o = true) (objects (run 2%N).2) ∧
  filter (λ o, isTag o = true) (objects (run 1%N).2)
  ≠ filter (λ o, isTag o = true) (objects (run 2%N).2) ∧
  tags (run 1%N).2 !! "v5.0.0" ≠ tags (run 2%N).2 !! "v5.0.0".
Proof.
  cbn zeta. split; [by vm_compute|]. split; [by vm_compute|].
  split; [by vm_compute|].
  split; [|split]; intros H; vm_compute in H; discriminate H.
Qed.

(* ===================================================================== *)
(** ** Deterministic tree addressing *)

(** C5.  Deterministic tree addressing: two builds of the object tree, in
    any two runs that hash objects alike, from directories with the same
    files and sub-directories that the file system enumerates in different
    orders, return the same root hash: [ioutil.ReadDir] hands the entries
    over sorted by name. *)
Theorem deterministic_tree_addressing
        env1 env2 dir1 dir2 n1 n2 r1 r2 h1 h2 r1' r2' :
  (∀ o, hashObject env1 o = hashObject env2 o) →
  uniqueNames n1 →
  shuffled n1 n2 →
  slurpDirIntoGitTree env1 dir1 n1 r1 = (inr h1, r1') →
  slurpDirIntoGitTree env2 dir2 n2 r2 = (inr h2, r2') →
  h1 = h2.
Proof.
  intros Hhash Huniq Hsh H1 H2.
  pose proof (slurpDirIntoGitTree_spec env1 n1 dir1 r1) as (w1 & _ & _ & P1).
  pose proof (slurpDirIntoGitTree_spec env2 n2 dir2 r2) as (w2 & _ & _ & P2).
  rewrite H1 in P1. rewrite H2 in P2.
  destruct (P1 _ eq_refl) as [E1 _]. destruct (P2 _ eq_refl) as [E2 _].
  rewrite E1, E2. by apply nodeHash_shuffled.
Qed.

Lemma buildDir_uniqueNames : uniqueNames Demo.buildDir.
Proof.
  assert (∀ l : list string, bool_decide (NoDup l) = true → NoDup l) as Hnd
    by (intros l; apply bool_decide_eq_true_1).
  apply uniqueNames_dir; [apply Hnd; by vm_compute|].
  repeat first
    [ apply Forall_nil_2
    | apply Forall_cons; split
    | apply uniqueNames_file
    | apply uniqueNames_dir; [apply Hnd; by vm_compute|] ].
Qed.

Lemma buildDir_shuffled : shuffled Demo.buildDir Demo.buildDirShuffled.
Proof.
  unfold Demo.buildDir, Demo.buildDirShuffled.
  pose (pbgo := ("tfplugin5.pb.go", FsFile (KRegular false) "package")).
  pose (proto := ("tfplugin5.proto", FsFile (KRegular false) Demo.proto50)).
  apply (shuffled_dir _
           [("go.mod", FsFile (KRegular false) "module m");
            ("tfplugin5", FsDir [pbgo; proto]);
            ("build.sh", FsFile (KRegular true) "#!/bin/sh")]).
  - apply Forall2_cons; split; [split; [done|apply shuffled_file]|].
    apply Forall2_cons; split.
    + split; [done|]. apply (shuffled_dir _ [proto; pbgo]).
      * apply Forall2_cons; split; [split; [done|apply shuffled_file]|].
        apply Forall2_cons; split; [split; [done|apply shuffled_file]|].
        apply Forall2_nil_2.
      * apply Permutation_swap.
    + apply Forall2_cons; split; [split; [done|apply shuffled_file]|].
      apply Forall2_nil_2.
  - etrans; [apply Permutation_swap|]. apply Permutation_skip.
    apply Permutation_swap.
Qed.

(** The theorem at a build directory and a reordering of it, built in two
    runs into two repositories: both builds return the same hash. *)
Lemma deterministic_tree_addressing_witness :
  uniqueNames Demo.buildDir ∧
  shuffled Demo.buildDir Demo.buildDirShuffled ∧
  ∃ h r1' r2',
    slurpDirIntoGitTree Demo.env "work.git/a" Demo.buildDir
                        Git.emptyRepository = (inr h, r1') ∧
    slurpDirIntoGitTree (Demo.envAt 5%N) "work.git/b" Demo.buildDirShuffled
                        Demo.released50 = (inr h, r2').
Proof.
  split; [exact buildDir_uniqueNames|]. split; [exact buildDir_shuffled|].
  destruct (slurpDirIntoGitTree Demo.env "work.git/a" Demo.buildDir
                                Git.emptyRepository) as [res1 r1'] eqn:H1.
  destruct (slurpDirIntoGitTree (Demo.envAt 5%N) "work.git/b"
                                Demo.buildDirShuffled Demo.released50)
    as [res2 r2'] eqn:H2.
  destruct res1 as [e1|h1]; [by vm_compute in H1|].
  destruct res2 as [e2|h2]; [by vm_compute in H2|].
  exists h1, r1', r2'. split; [reflexivity|]. do 2 f_equal. symmetry.
  exact (deterministic_tree_addressing Demo.env (Demo.envAt 5%N) _ _ _ _ _ _
           h1 h2 r1' r2' (λ o, eq_refl) buildDir_uniqueNames
           buildDir_shuffled H1 H2).
Defined.

(* ===================================================================== *)
(** ** Write order *)

(** C6.  Write ordering safety: a run of [createStableTags], however it
    ends and whichever calls fail, leaves the object store written in the
    order tree, then commit, then tag object (the tree of every commit was
    written before the commit, the commit of every tag object before the
    tag object), and every tag of the repository points at a tag object of
    the store whose commit is in the store; for a version that is released,
    the objects are written in exactly this order and the tag is set
    last. *)
Theorem write_order_safety env tfRepo blobs r res r' :
  logOrdered env (objects r) →
  tagsResolve env r →
  createStableTags env tfRepo blobs r = (res, r') →
  logOrdered env (objects r') ∧
  tagsResolve env r' ∧
  ∀ v dir tmp r0 res0 r0',
    commitAndTag env v (tagNameOf v) dir tmp r0 = (res0, r0') →
    ∃ w, Forall isTreeOrBlob w ∧
         match res0 with
         | inr _ =>
             ∃ es c t,
               TreeObject es ∈ w ∧
               hashObject env (TreeObject es) = Git.TreeHash c ∧
               hashObject env (CommitObject c) = Git.Target t ∧
               objects r0' = objects r0 ++ w ++ [CommitObject c; TagObject t] ∧
               tags r0' = <[tagNameOf v := hashObject env (TagObject t)]>
                            (tags r0)
         | inl _ =>
             tags r0' = tags r0 ∧
             (objects r0' = objects r0 ++ w ∨
              ∃ es c,
                TreeObject es ∈ w ∧
                hashObject env (TreeObject es) = Git.TreeHash c ∧
                (objects r0' = objects r0 ++ w ++ [CommitObject c] ∨
                 ∃ t, hashObject env (CommitObject c) = Git.Target t ∧
                      objects r0' = objects r0 ++ w
                                      ++ [CommitObject c; TagObject t]))
         end.
Proof.
  intros Hlog Hres H.
  apply createStableTags_Run in H.
  destruct (Run_sound _ _ _ _ _ H (conj Hlog Hres)) as [Hlog' Hres'].
  split; [done|]. split; [done|].
  intros v dir tmp r0 res0 r0' Hstep. apply commitAndTag_spec in Hstep.
  destruct Hstep as [e w ? Hw [Ho Ht]|cause w ? c Hw (es & ? & ?) [Ho Ht]
                    |cause w ? c Hw (es & ? & ?) [Ho Ht]
                    |w ? c t Hw (es & ? & ?) Ho Hnone Ht].
  - exists w. split; [done|]. split; [done|]. by left.
  - exists w. split; [done|]. split; [done|]. right. exists es, c.
    split; [done|]. split; [done|]. by left.
  - exists w. split; [done|]. split; [done|]. right. exists es, c.
    split; [done|]. split; [done|]. right.
    by exists (tagOf env v c).
  - exists w. split; [done|]. by exists es, c, t.
Qed.

Lemma emptyRepository_sound env : repositorySound env Git.emptyRepository.
Proof.
  split.
  - intros l1 o l2 Heq. by destruct l1.
  - intros name h Hname. cbn in Hname. by rewrite lookup_empty in Hname.
Qed.

(** The theorem at the run that releases 5.0 and 5.1 into an empty
    repository. *)
Lemma write_order_safety_witness :
  let r' := (createStableTags Demo.env Demo.tfRepo
               [(Demo.v5_0, Demo.blobOf Demo.proto50);
                (Demo.v5_1, Demo.blobOf Demo.proto51)]
               Git.emptyRepository).2 in
  logOrdered Demo.env (objects r') ∧ tagsResolve Demo.env r' ∧
  dom (tags r') = {["v5.0.0"; "v5.1.0"]}.
Proof.
  cbn zeta.
  destruct (createStableTags Demo.env Demo.tfRepo
              [(Demo.v5_0, Demo.blobOf Demo.proto50);
               (Demo.v5_1, Demo.blobOf Demo.proto51)]
              Git.emptyRepository) as [res r'] eqn:Hrun.
  destruct (write_order_safety Demo.env Demo.tfRepo _ Git.emptyRepository
              res r' (proj1 (emptyRepository_sound Demo.env))
              (proj2 (emptyRepository_sound Demo.env)) Hrun)
    as (Hlog & Hres & _).
  split; [exact Hlog|]. split; [exact Hres|].
  apply (f_equal snd) in Hrun. cbn [snd] in Hrun. subst r'.
  by vm_compute.
Defined.

(* ===================================================================== *)
(** ** Lookup of the tag *)

(** C7.  Ledger error discrimination: at the lookup of the tag of a
    version [v], reached after the versions [pre], an error other than
    not-found ends the run with the error "can't check if tag ... is
    already present" that carries the tag name and the cause, and leaves
    the repository as it was; a not-found result makes the version
    proceed: the run continues with the staging and the release of [v],
    and when it returns no error the commit and the tag object of [v] have
    been written and the tag of [v] points at that tag object. *)
Theorem ledger_error_discrimination
        env tfRepo pre v blobHash post r r1 err res r' :
  createStableTags env tfRepo pre r = (inr tt, r1) →
  Repository_Tag env r1 (tagNameOf v) = inl err →
  createStableTags env tfRepo (pre ++ (v, blobHash) :: post) r = (res, r') →
  if decide (err = ErrTagNotFound)
  then
    (res, r') = (staged <~ stageModule env tfRepo v blobHash ;;
                 commitAndTag env v (tagNameOf v) staged.1 staged.2 ;;;
                 createStableTags env tfRepo post) r1 ∧
    match res with
    | inr _ =>
        ∃ w th,
          let c := commitOf v th (Now env v) in
          let t := tagOf env v c in
          objects r1 ++ w ++ [CommitObject c; TagObject t]
            `prefix_of` objects r' ∧
          tags r' !! tagNameOf v = Some (hashObject env (TagObject t))
    | inl _ => True
    end
  else
    res = inl (ErrCheckTag (tagNameOf v) err) ∧ r' = r1.
Proof.
  intros Hpre Htag Hall.
  rewrite createStableTags_app in Hall. unfold bind at 1 in Hall.
  rewrite Hpre in Hall.
  destruct (decide (err = ErrTagNotFound)) as [->|Hne].
  - rewrite createStableTags_not_found in Hall by done.
    split; [done|]. destruct res as [e|u]; [done|].
    inv_run.
    repeat match goal with
           | Hs : stageModule _ _ _ _ _ = _ |- _ =>
               apply stageModule_inv in Hs as ->
           | Hc : commitAndTag _ _ _ _ _ _ = (inr ?u, _) |- _ =>
               destruct u;
               apply commitAndTag_spec, releaseStep_released_inv in Hc
                 as (w & _ & _ & Ho & _ & Ht)
           | Hr : createStableTags _ _ _ _ = _ |- _ =>
               apply createStableTags_Run, Run_mono in Hr as [[k Hk] Hsub]
           end.
    eexists w, _. cbn zeta. split.
    + exists k. rewrite Hk, Ho. by rewrite <- !app_assoc.
    + eapply lookup_weaken; [|exact Hsub]. rewrite Ht.
      apply lookup_insert_eq.
  - rewrite (createStableTags_lookup_failed _ _ _ _ _ _ err) in Hall by done.
    by inversion Hall.
Qed.

(** The theorem at a run in which the tag v5.1.0 cannot be read, and at a
    run in which it is not found. *)
Lemma ledger_error_discrimination_witness :
  let pre := [(Demo.v5_0, Demo.blobOf Demo.proto50)] in
  let post := [(Demo.v5_2, Demo.blobOf Demo.proto52)] in
  let blobs := pre ++ (Demo.v5_1, Demo.blobOf Demo.proto51) :: post in
  let broken := createStableTags Demo.envBrokenRef Demo.tfRepo blobs
                                 Git.emptyRepository in
  (broken.1 = inl (ErrCheckTag "v5.1.0" (ErrOther "reference broken")) ∧
   broken.2 = Demo.released50) ∧
  dom (tags (createStableTags Demo.env Demo.tfRepo blobs
                              Git.emptyRepository).2)
  = {["v5.0.0"; "v5.1.0"; "v5.2.0"]}.
Proof.
  cbn zeta. split; [|by vm_compute].
  destruct (createStableTags Demo.envBrokenRef Demo.tfRepo
              ([(Demo.v5_0, Demo.blobOf Demo.proto50)]
                 ++ (Demo.v5_1, Demo.blobOf Demo.proto51)
                 :: [(Demo.v5_2, Demo.blobOf Demo.proto52)])
              Git.emptyRepository) as [res r'] eqn:Hrun.
  assert (createStableTags Demo.envBrokenRef Demo.tfRepo
            [(Demo.v5_0, Demo.blobOf Demo.proto50)] Git.emptyRepository
          = (inr tt, Demo.released50)) as Hpre by (by vm_compute).
  assert (Repository_Tag Demo.envBrokenRef Demo.released50
            (tagNameOf Demo.v5_1)
          = inl (ErrOther "reference broken")) as Htag by (by vm_compute).
  exact (ledger_error_discrimination Demo.envBrokenRef Demo.tfRepo
           [(Demo.v5_0, Demo.blobOf Demo.proto50)] Demo.v5_1
           (Demo.blobOf Demo.proto51)
           [(Demo.v5_2, Demo.blobOf Demo.proto52)]
           Git.emptyRepository Demo.released50
           (ErrOther "reference broken") res r' Hpre Htag Hrun).
Defined.

(* ===================================================================== *)
(** ** Discovery of versions *)

(** C8 (as amended).  When the commit, its tree and the directory
    docs/plugin-protocol are found, [readProtoVersionBlobRefs] returns a
    catalog (it never fails on an entry) that maps a version to a hash
    exactly when the directory (one level, in its order) has an entry named
    tfplugin<mid>.proto with this hash such that <mid>.0 parses as the
    version, and no later entry declares the same version; <mid> may hold
    a dot, as in tfplugin5.1.proto.  Entries with other names, or whose
    <mid>.0 does not parse, are skipped.  The directory with
    tfplugin5.proto, README.md and tfplugin.proto yields exactly the entry
    5.0 with the content of tfplugin5.proto. *)
Theorem discovery_pattern env repo commitHash commit rootTree protoTree :
  Repository_CommitObject env repo commitHash = inr commit →
  Repository_TreeObject env repo (Git.TreeHash commit) = inr rootTree →
  Tree_Tree env repo rootTree ["docs"; "plugin-protocol"] = inr protoTree →
  (∃ catalog,
      readProtoVersionBlobRefs env repo commitHash = Some (inr catalog) ∧
      ∀ v h,
        catalog !! v = Some h ↔
        ∃ l1 e l2,
          protoTree = l1 ++ e :: l2 ∧
          (∃ mid, Git.Name e = "tfplugin" +:+ mid +:+ ".proto" ∧
                  Versions.ParseVersion (mid +:+ ".0") = Some v) ∧
          Git.EntryHash e = h ∧
          Forall (λ e', ¬ ∃ mid, Git.Name e' = "tfplugin" +:+ mid +:+ ".proto" ∧
                                 Versions.ParseVersion (mid +:+ ".0") = Some v)
                 l2) ∧
  readProtoVersionBlobRefs Demo.env Demo.sourceRepo
    (Demo.hash (CommitObject Demo.stableCommit))
  = Some (inr {[Demo.v5_0 := Demo.blobOf Demo.proto50]}).
Proof.
  intros Hcommit Hroot Hproto. split; [|by vm_compute].
  unfold readProtoVersionBlobRefs. rewrite Hcommit, Hroot, Hproto.
  rewrite collectProtoVersions_foldl. eexists. split; [done|].
  intros v h. rewrite foldl_recordEntry_lookup. split.
  - intros [H|[_ H]]; [exact H|by rewrite lookup_empty in H].
  - intros H. by left.
Qed.

(** The theorem at the commit of the small Terraform repository. *)
Lemma discovery_pattern_witness :
  (∃ catalog,
      readProtoVersionBlobRefs Demo.env Demo.sourceRepo
        (Demo.hash (CommitObject Demo.stableCommit)) = Some (inr catalog) ∧
      ∀ v h,
        catalog !! v = Some h ↔
        ∃ l1 e l2,
          Demo.protoTree = l1 ++ e :: l2 ∧
          (∃ mid, Git.Name e = "tfplugin" +:+ mid +:+ ".proto" ∧
                  Versions.ParseVersion (mid +:+ ".0") = Some v) ∧
          Git.EntryHash e = h ∧
          Forall (λ e', ¬ ∃ mid, Git.Name e' = "tfplugin" +:+ mid +:+ ".proto" ∧
                                 Versions.ParseVersion (mid +:+ ".0") = Some v)
                 l2) ∧
  readProtoVersionBlobRefs Demo.env Demo.sourceRepo
    (Demo.hash (CommitObject Demo.stableCommit))
  = Some (inr {[Demo.v5_0 := Demo.blobOf Demo.proto50]}).
Proof.
  apply (discovery_pattern Demo.env Demo.sourceRepo _ Demo.stableCommit
           Demo.rootTree Demo.protoTree); by vm_compute.
Defined.

(** C8 as the specification words it fails: the entry tfplugin5.1.proto
    yields the catalog entry 5.1.0 although its name is not of the form
    tfplugin<digits>.proto. *)
Lemma discovery_accepts_minor_numbers :
  collectProtoVersions
    [mkTreeEntry "tfplugin5.1.proto" Git.Regular (Demo.blobOf Demo.proto51)] ∅
  = Some {[Demo.v5_1 := Demo.blobOf Demo.proto51]} ∧
  ¬ specPattern "tfplugin5.1.proto".
Proof.
  split; [by vm_compute|].
  intros (digits & Hdigits & Hname).
  change "tfplugin5.1.proto" with ("tfplugin" +:+ "5.1" +:+ ".proto") in Hname.
  apply (inj (String.app "tfplugin")) in Hname.
  apply append_inj_r in Hname as <-. discriminate Hdigits.
Qed.

(* ===================================================================== *)
(** ** Versions *)

(** C9.  Version parsing and ordering: "5" is rejected (as is every
    string without a minor component), "5.2" parses to Version{5,2,0},
    "5.2.1" to Version{5,2,1}, the ordering is lexicographic on (major,
    minor, build), and 5.2 < 5.3 < 6.0. *)
Theorem version_parsing_and_ordering :
  Versions.ParseVersion "5" = None ∧
  (∀ s, Versions.ParseVersion s = None ∨ hasDot s = true) ∧
  Versions.ParseVersion "5.2" = Some (mkVersion 5 2 0) ∧
  Versions.ParseVersion "5.2.1" = Some (mkVersion 5 2 1) ∧
  (∀ v w, Versions.LessThan v w = true ↔
          (Major v < Major w)%N ∨
          (Major v = Major w ∧
           ((Minor v < Minor w)%N ∨
            (Minor v = Minor w ∧ (Build v < Build w)%N)))) ∧
  (∃ a b c, Versions.ParseVersion "5.2" = Some a ∧
            Versions.ParseVersion "5.3" = Some b ∧
            Versions.ParseVersion "6.0" = Some c ∧
            Versions.LessThan a b = true ∧ Versions.LessThan b c = true ∧
            Versions.LessThan a c = true ∧ Versions.LessThan b a = false ∧
            Versions.LessThan c b = false).
Proof.
  split; [reflexivity|]. split; [exact ParseVersion_needs_minor|].
  split; [reflexivity|]. split; [reflexivity|].
  split; [exact LessThan_lexicographic|].
  exists (mkVersion 5 2 0), (mkVersion 5 3 0), (mkVersion 6 0 0).
  repeat split; reflexivity.
Qed.

(* ===================================================================== *)
(** ** No rollback *)

(** C10.  No rollback on abort: when the versions [pre] have been
    processed without error and the run over [pre ++ post] then ends in
    whatever way, possibly with an error while processing a version of
    [post], everything written for [pre] is still there: the object store
    after [pre] is a prefix of the final one, every tag set after [pre]
    is in the final repository with the same hash, and every version of
    [pre] has its tag. *)
Theorem no_rollback_on_abort env tfRepo pre post r r1 res r' :
  createStableTags env tfRepo pre r = (inr tt, r1) →
  createStableTags env tfRepo (pre ++ post) r = (res, r') →
  createStableTags env tfRepo post r1 = (res, r') ∧
  objects r1 `prefix_of` objects r' ∧
  tags r1 ⊆ tags r' ∧
  ∀ v, v ∈ pre.*1 → is_Some (tags r' !! tagNameOf v).
Proof.
  intros Hpre Hall. rewrite createStableTags_app in Hall.
  unfold bind in Hall. rewrite Hpre in Hall.
  split; [done|].
  pose proof (Run_mono _ _ _ _ _ (createStableTags_Run _ _ _ _ _ _ Hall))
    as [Ho Ht].
  split; [done|]. split; [done|].
  intros v Hv.
  destruct (Run_all_tagged _ _ _ _ (createStableTags_Run _ _ _ _ _ _ Hpre)
              v Hv) as [h Hh].
  exists h. by eapply lookup_weaken.
Qed.

(** The theorem at a run that releases 5.0 and then fails on 5.1, whose
    protocol definition protoc rejects: v5.0.0 stays. *)
Lemma no_rollback_on_abort_witness :
  let pre := [(Demo.v5_0, Demo.blobOf Demo.proto50)] in
  let post := [(Demo.v5_1, Demo.blobOf Demo.protoBad);
               (Demo.v5_2, Demo.blobOf Demo.proto52)] in
  let r1 := (createStableTags Demo.env Demo.tfRepo pre
                              Git.emptyRepository).2 in
  let out := createStableTags Demo.env Demo.tfRepo (pre ++ post)
                              Git.emptyRepository in
  out.1 = inl (ErrProtoc Demo.v5_1 "exit status 1") ∧
  createStableTags Demo.env Demo.tfRepo post r1 = (out.1, out.2) ∧
  objects r1 `prefix_of` objects out.2 ∧
  tags r1 ⊆ tags out.2 ∧
  ∀ v, v ∈ pre.*1 → is_Some (tags out.2 !! tagNameOf v).
Proof.
  cbn zeta. split; [by vm_compute|].
  apply (no_rollback_on_abort Demo.env Demo.tfRepo
           [(Demo.v5_0, Demo.blobOf Demo.proto50)]
           [(Demo.v5_1, Demo.blobOf Demo.protoBad);
            (Demo.v5_2, Demo.blobOf Demo.proto52)]
           Git.emptyRepository).
  - by vm_compute.
  - by destruct (createStableTags _ _ _ _).
Defined.
